(** * limeutils.redis: a namespacing layer in front of a Redis connection

    Shallow embedding of [limeutils/redis/redis.py] (class [Redis]) and
    verification of its key composition, read defaults, expiration policy
    and frame properties.

    Python strings are modelled as [string], one [ascii] per code point
    (code points below 256).  The Redis server behind [self.r] is modelled
    as a finite map from key names to typed entries together with the list
    of commands it has received. *)

From Stdlib Require Import ZArith Bool List Ascii String.
From Stdlib Require Import Numbers.DecimalString Numbers.DecimalZ.
From Stdlib Require Import Floats.SpecFloat.
From stdpp Require Import base option list strings gmap fin_maps.

Local Open Scope string_scope.
Local Open Scope list_scope.
Local Open Scope Z_scope.

(** ** Python values and the string helpers the client relies on *)

Module Py.

(** The scalars that travel through the client: [None], [bool], [int],
    [float] and [str]. *)
Inductive value : Type :=
| VNone
| VBool (b : bool)
| VInt (z : Z)
| VFloat (f : spec_float)
| VStr (s : string).

(** [bool(v)]: Python truthiness. *)
Definition truthy (v : value) : bool :=
  match v with
  | VNone => false
  | VBool b => b
  | VInt z => negb (z =? 0)
  | VFloat (S754_zero _) => false
  | VFloat _ => true
  | VStr s => negb (String.eqb s "")
  end.

(** [int(b)] for a [bool]. *)
Definition int_of_bool (b : bool) : Z := if b then 1 else 0.

(** Exact comparison of a float with an integer. *)
Definition float_eq_int (f : spec_float) (z : Z) : bool :=
  match f with
  | S754_zero _ => z =? 0
  | S754_finite s m e =>
      let mz := if s then Z.neg m else Z.pos m in
      if 0 <=? e then z =? mz * 2 ^ e else z * 2 ^ (- e) =? mz
  | S754_infinity _ | S754_nan => false
  end.

(** [a == b].  Numbers compare by value across [bool], [int] and
    [float]; a string only equals a string, [None] only [None]. *)
Definition eqb (a b : value) : bool :=
  match a, b with
  | VNone, VNone => true
  | VStr s, VStr t => String.eqb s t
  | VFloat f, VFloat g => SFeqb f g
  | VFloat f, VInt z | VInt z, VFloat f => float_eq_int f z
  | VFloat f, VBool c | VBool c, VFloat f => float_eq_int f (int_of_bool c)
  | VInt z, VInt w => z =? w
  | VInt z, VBool c | VBool c, VInt z => z =? int_of_bool c
  | VBool c, VBool d => Bool.eqb c d
  | _, _ => false
  end.

(** A [dict] in insertion order.  [dict_setitem] is [d[k] = v]: an equal
    key keeps its place and its key object and takes the new value. *)
Fixpoint dict_setitem (d : list (value * value)) (k v : value)
  : list (value * value) :=
  match d with
  | [] => [(k, v)]
  | (k', v') :: d' =>
      if eqb k' k then (k', v) :: d' else (k', v') :: dict_setitem d' k v
  end.

(** [dict(pairs)]. *)
Definition dict (pairs : list (value * value)) : list (value * value) :=
  List.fold_left (fun d kv => dict_setitem d (fst kv) (snd kv)) pairs [].

(** [d.get(k)], [None] when the key is not there. *)
Fixpoint dict_get (d : list (value * value)) (k : value) : option value :=
  match d with
  | [] => None
  | (k', v') :: d' => if eqb k' k then Some v' else dict_get d' k
  end.

(** A sequence of strings as the client receives it: a [list] or a
    [tuple].  [isinstance(x, list)] tells them apart; iterating, [len],
    [zip] and [list(x)] see the elements only. *)
Inductive sequence : Type :=
| PyList (items : list string)
| PyTuple (items : list string).

(** [list(x)]. *)
Definition elements (x : sequence) : list string :=
  match x with
  | PyList items => items
  | PyTuple items => items
  end.

(** [zip(a, b)]. *)
Definition zip {A B : Type} (a : list A) (b : list B) : list (A * B) :=
  List.combine a b.

(** The scalars the write path is documented for: [str], [int], [float]. *)
Definition is_scalar (v : value) : bool :=
  match v with
  | VInt _ | VFloat _ | VStr _ => true
  | VNone | VBool _ => false
  end.

(** [str.isspace] on one code point below 256. *)
Definition isspace (c : ascii) : bool :=
  let n := N_of_ascii c in
  ((9 <=? n) && (n <=? 13) || (28 <=? n) && (n <=? 32)
   || (n =? 133) || (n =? 160))%N.

(** [str.lstrip()], [str.rstrip()] and [str.strip()] without argument. *)
Fixpoint lstrip (s : string) : string :=
  match s with
  | EmptyString => EmptyString
  | String c s' => if isspace c then lstrip s' else s
  end.

Fixpoint rstrip (s : string) : string :=
  match s with
  | EmptyString => EmptyString
  | String c s' =>
      match rstrip s' with
      | EmptyString => if isspace c then EmptyString else String c EmptyString
      | r => String c r
      end
  end.

Definition strip (s : string) : string := rstrip (lstrip s).

(** [a and a or b] where [a] is an optional string and [b] a string. *)
Definition and_or (a : option string) (b : string) : string :=
  match a with
  | Some s => if String.eqb s "" then b else s
  | None => b
  end.

(** [list(filter(None, l))] on a list of strings. *)
Definition filter_none (l : list string) : list string :=
  List.filter (fun s => negb (String.eqb s "")) l.

(** [sep.join(l)]. *)
Definition join (sep : string) (l : list string) : string :=
  String.concat sep l.

End Py.

(** ** The wire representation of values

    Two conversions sit between the client and the server: the encoding of
    an argument by the connection object ([redis.Redis] packs a command and
    raises [DataError] on a value it cannot encode) and the decoding of a
    reply by [limeutils.byte_conv].  Neither is defined in [redis.py], so
    the client is written over an interface. *)

Class Codec : Type := {
  (** what the server stores and replies with (byte strings) *)
  raw : Type;
  (** argument encoding of the connection; [None] is [DataError] *)
  encode : Py.value -> option raw;
  (** [limeutils.byte_conv]: a reply ([None] for a nil reply) to a value *)
  byte_conv : option raw -> Py.value;
  (** the bytes a hash field name comes back as from [HGETALL] *)
  raw_of_str : string -> raw;
}.

(** Modelled from the spec: [limeutils.byte_conv] and the value encoding of
    the connection, both outside [redis.py].  The spec describes the codec
    as a simple pass-through conversion of scalars in which a missing key or
    field decodes to the absent marker [None]; the connection accepts
    [str], [int] and [float] and refuses [None] and [bool]. *)
Definition passthrough_encode (v : Py.value) : option Py.value :=
  if Py.is_scalar v then Some v else None.

(** Modelled from the spec: [limeutils.byte_conv] as the pass-through
    conversion; a nil reply decodes to the absent marker [None]. *)
Definition passthrough_byte_conv (reply : option Py.value) : Py.value :=
  match reply with
  | Some v => v
  | None => Py.VNone
  end.

(** Modelled from the spec: the pass-through codec.  The server keeps the
    scalar it is given and a hash field name comes back as the string it
    is.  The wire of this codec keeps the Python type of a value; the
    byte-like wire, on which a string and a number can have the same form,
    is [wire] below. *)
Definition passthrough : Codec := {|
  raw := Py.value;
  encode := passthrough_encode;
  byte_conv := passthrough_byte_conv;
  raw_of_str := Py.VStr;
|}.

(** *** The byte-like wire *)

(** [str(z)] for an [int]: the decimal form, with a minus sign when
    negative. *)
Definition str_of_int (z : Z) : string :=
  NilZero.string_of_int (Z.to_int z).

(** The integer a byte string is the decimal form of, if it is one. *)
Definition int_of_bytes (b : string) : option Z :=
  match NilZero.int_of_string b with
  | Some d =>
      let z := Z.of_int d in
      if String.eqb (str_of_int z) b then Some z else None
  | None => None
  end.

(** What travels to and from the server: bytes.  The text of a float (its
    [repr]) is kept symbolic: its digits are not modelled, only that it
    reads back as the float it came from. *)
Inductive wire_form : Type :=
| Bytes (b : string)
| FloatRepr (f : spec_float).

(** Modelled from the spec: the value encoding of the connection on a
    byte-like wire.  A [str] is sent as its bytes and an [int] as its
    decimal form, so that the string ['123'] and the integer [123] are the
    same bytes; [None] and [bool] are refused. *)
Definition wire_encode (v : Py.value) : option wire_form :=
  match v with
  | Py.VStr s => Some (Bytes s)
  | Py.VInt z => Some (Bytes (str_of_int z))
  | Py.VFloat f => Some (FloatRepr f)
  | Py.VNone | Py.VBool _ => None
  end.

(** Modelled from the spec: [limeutils.byte_conv] on a byte-like wire,
    converting a raw reply into a native scalar.  [test_set] reads the
    integer 123 back as an integer and ['abc'] as a string: bytes that are
    the decimal form of an integer decode to that integer, other bytes to
    the string they are, and a nil reply to the absent marker [None]. *)
Definition wire_byte_conv (reply : option wire_form) : Py.value :=
  match reply with
  | None => Py.VNone
  | Some (FloatRepr f) => Py.VFloat f
  | Some (Bytes b) =>
      match int_of_bytes b with
      | Some z => Py.VInt z
      | None => Py.VStr b
      end
  end.

(** Modelled from the spec: the codec of a byte-like wire. *)
Definition wire : Codec := {|
  raw := wire_form;
  encode := wire_encode;
  byte_conv := wire_byte_conv;
  raw_of_str := Bytes;
|}.

(** ** Errors and the monad of client calls *)

Inductive error : Type :=
| ValidationFailure   (* raised by a command model *)
| DataError           (* raised by the connection before anything is sent *)
| ResponseError.      (* error reply of the server (WRONGTYPE, arity) *)

Inductive result (A : Type) : Type :=
| Ok (a : A)
| Raise (e : error).
Arguments Ok {A} a.
Arguments Raise {A} e.

(** Outcome of building a command model. *)
Inductive validated (A : Type) : Type :=
| Valid (a : A)
| Invalid.
Arguments Valid {A} a.
Arguments Invalid {A}.

(** ** The Redis server behind [self.r] *)

Module server.
Section Server.
Context `{C : Codec}.

Inductive rvalue : Type :=
| RString (v : raw)
| RHash (h : list (string * raw)).

Record entry : Type := {
  value : rvalue;
  expire : option Z;   (* remaining time to live, [None] = persistent *)
}.

Inductive command : Type :=
| SET (name : string) (v : raw) (xx keepttl : bool)
| EXPIRE (name : string) (time : Z)
| HSET (name : string) (items : list (string * raw))
| GET (name : string)
| HGET (name : string) (field : string)
| HMGET (name : string) (fields : list string)
| HGETALL (name : string)
| HDEL (name : string) (fields : list string)
| DEL (names : list string).

(** The server state: the keyspace and the commands received so far. *)
Record t : Type := {
  db : gmap string entry;
  log : list command;
}.

(** *** Hashes: association lists with unique field names *)

Fixpoint hash_get (h : list (string * raw)) (f : string) : option raw :=
  match h with
  | [] => None
  | (f', v) :: h' => if String.eqb f' f then Some v else hash_get h' f
  end.

(** Sets one field; the flag tells whether the field is new. *)
Fixpoint hash_set (h : list (string * raw)) (f : string) (v : raw)
  : list (string * raw) * bool :=
  match h with
  | [] => ([(f, v)], true)
  | (f', v') :: h' =>
      if String.eqb f' f then ((f', v) :: h', false)
      else let '(h'', new) := hash_set h' f v in ((f', v') :: h'', new)
  end.

Fixpoint hash_set_all (h : list (string * raw)) (items : list (string * raw))
  : list (string * raw) * Z :=
  match items with
  | [] => (h, 0)
  | (f, v) :: items' =>
      let '(h1, new) := hash_set h f v in
      let '(h2, n) := hash_set_all h1 items' in
      (h2, (if new then 1 else 0) + n)
  end.

(** Removes one field; the flag tells whether it was there. *)
Fixpoint hash_del (h : list (string * raw)) (f : string)
  : list (string * raw) * bool :=
  match h with
  | [] => ([], false)
  | (f', v') :: h' =>
      if String.eqb f' f then (h', true)
      else let '(h'', gone) := hash_del h' f in ((f', v') :: h'', gone)
  end.

Fixpoint hash_del_all (h : list (string * raw)) (fs : list string)
  : list (string * raw) * Z :=
  match fs with
  | [] => (h, 0)
  | f :: fs' =>
      let '(h1, gone) := hash_del h f in
      let '(h2, n) := hash_del_all h1 fs' in
      (h2, (if gone then 1 else 0) + n)
  end.

(** *** Command semantics on the keyspace

    Each function gives the reply and the new keyspace.  A command applied
    to a key of the wrong type, or sent without the arguments it needs, is
    answered by an error and changes nothing. *)

(** [SET name v [XX] [KEEPTTL]]: the reply is [true] for OK and [false]
    for the nil reply of a condition that was not met. *)
Definition do_set (name : string) (v : raw) (xx keepttl : bool)
    (m : gmap string entry) : result bool * gmap string entry :=
  match m !! name with
  | None =>
      if xx then (Ok false, m)
      else (Ok true, <[name := {| value := RString v; expire := None |}]> m)
  | Some e =>
      let ex := if keepttl then expire e else None in
      (Ok true, <[name := {| value := RString v; expire := ex |}]> m)
  end.

(** [EXPIRE name time]: a time that is not positive deletes the key. *)
Definition do_expire (name : string) (time : Z)
    (m : gmap string entry) : result bool * gmap string entry :=
  match m !! name with
  | None => (Ok false, m)
  | Some e =>
      if time <=? 0 then (Ok true, delete name m)
      else (Ok true, <[name := {| value := value e; expire := Some time |}]> m)
  end.

(** [HSET name f v [f v ...]]: the reply counts the fields created. *)
Definition do_hset (name : string) (items : list (string * raw))
    (m : gmap string entry) : result Z * gmap string entry :=
  match items with
  | [] => (Raise ResponseError, m)
  | _ =>
      match m !! name with
      | None =>
          let '(h, n) := hash_set_all [] items in
          (Ok n, <[name := {| value := RHash h; expire := None |}]> m)
      | Some {| value := RHash h0; expire := ex |} =>
          let '(h, n) := hash_set_all h0 items in
          (Ok n, <[name := {| value := RHash h; expire := ex |}]> m)
      | Some {| value := RString _ |} => (Raise ResponseError, m)
      end
  end.

Definition do_get (name : string)
    (m : gmap string entry) : result (option raw) * gmap string entry :=
  match m !! name with
  | None => (Ok None, m)
  | Some {| value := RString v |} => (Ok (Some v), m)
  | Some {| value := RHash _ |} => (Raise ResponseError, m)
  end.

Definition do_hget (name field : string)
    (m : gmap string entry) : result (option raw) * gmap string entry :=
  match m !! name with
  | None => (Ok None, m)
  | Some {| value := RHash h |} => (Ok (hash_get h field), m)
  | Some {| value := RString _ |} => (Raise ResponseError, m)
  end.

Definition do_hmget (name : string) (fields : list string)
    (m : gmap string entry) : result (list (option raw)) * gmap string entry :=
  match fields with
  | [] => (Raise ResponseError, m)
  | _ =>
      match m !! name with
      | None => (Ok (List.map (fun _ => None) fields), m)
      | Some {| value := RHash h |} => (Ok (List.map (hash_get h) fields), m)
      | Some {| value := RString _ |} => (Raise ResponseError, m)
      end
  end.

Definition do_hgetall (name : string)
    (m : gmap string entry) : result (list (string * raw)) * gmap string entry :=
  match m !! name with
  | None => (Ok [], m)
  | Some {| value := RHash h |} => (Ok h, m)
  | Some {| value := RString _ |} => (Raise ResponseError, m)
  end.

(** [HDEL name f [f ...]]: the reply counts the fields removed; a hash
    left without fields is removed from the keyspace. *)
Definition do_hdel (name : string) (fields : list string)
    (m : gmap string entry) : result Z * gmap string entry :=
  match fields with
  | [] => (Raise ResponseError, m)
  | _ =>
      match m !! name with
      | None => (Ok 0, m)
      | Some {| value := RHash h0; expire := ex |} =>
          let '(h, n) := hash_del_all h0 fields in
          match h with
          | [] => (Ok n, delete name m)
          | _ => (Ok n, <[name := {| value := RHash h; expire := ex |}]> m)
          end
      | Some {| value := RString _ |} => (Raise ResponseError, m)
      end
  end.

(** Removes the keys one after the other, counting those that were there. *)
Fixpoint del_all (names : list string) (m : gmap string entry)
  : gmap string entry * Z :=
  match names with
  | [] => (m, 0)
  | n :: names' =>
      let '(m1, c) := match m !! n with
                      | Some _ => (delete n m, 1)
                      | None => (m, 0)
                      end in
      let '(m2, k) := del_all names' m1 in
      (m2, c + k)
  end.

(** [DEL name [name ...]]: the reply counts the keys removed. *)
Definition do_del (names : list string)
    (m : gmap string entry) : result Z * gmap string entry :=
  match names with
  | [] => (Raise ResponseError, m)
  | _ => let '(m', n) := del_all names m in (Ok n, m')
  end.

End Server.
End server.

(** ** Client calls: state passing over the server, with exceptions *)

Definition M `{C : Codec} (A : Type) : Type :=
  server.t -> result A * server.t.

Definition ret `{C : Codec} {A : Type} (a : A) : M A :=
  fun s => (Ok a, s).

Definition raise `{C : Codec} {A : Type} (e : error) : M A :=
  fun s => (Raise e, s).

Definition bind `{C : Codec} {A B : Type} (m : M A) (k : A -> M B) : M B :=
  fun s =>
    match m s with
    | (Ok a, s') => k a s'
    | (Raise e, s') => (Raise e, s')
    end.

Notation "'let*' x ':=' m 'in' k" := (bind m (fun x => k))
  (at level 10, x name, m at level 100, k at level 200).

(** A command model that does not validate raises. *)
Definition validate `{C : Codec} {A : Type} (v : validated A) : M A :=
  match v with
  | Valid a => ret a
  | Invalid => raise ValidationFailure
  end.

(** ** The connection object [self.r] ([import redis as reds])

    Each method encodes its arguments (raising [DataError] before anything
    is sent), sends one command, which the server records, and hands back
    the reply. *)

Module reds.
Section Connection.
Context `{C : Codec}.

Definition execute_command {A : Type} (c : server.command)
    (run : gmap string server.entry -> result A * gmap string server.entry)
  : M A :=
  fun s =>
    let '(r, m) := run (server.db s) in
    (r, {| server.db := m; server.log := server.log s ++ [c] |}).

(** Encoding of the field/value pairs of [HSET]. *)
Fixpoint encode_items (items : list (string * Py.value))
  : option (list (string * raw)) :=
  match items with
  | [] => Some []
  | (f, v) :: items' =>
      match encode v, encode_items items' with
      | Some r, Some rs => Some ((f, r) :: rs)
      | _, _ => None
      end
  end.

(** [set(name, value, xx=.., keepttl=..)]: [True], or [None] when the
    condition was not met. *)
Definition set (name : string) (value : Py.value) (xx keepttl : bool)
  : M Py.value :=
  match encode value with
  | None => raise DataError
  | Some v =>
      let* ok := execute_command (server.SET name v xx keepttl)
                   (server.do_set name v xx keepttl) in
      ret (if ok : bool then Py.VBool true else Py.VNone)
  end.

Definition expire (name : string) (time : Z) : M bool :=
  execute_command (server.EXPIRE name time) (server.do_expire name time).

(** [hset(name, key=None, value=None, mapping=None)]. *)
Definition hset (name : string) (key : option string) (value : Py.value)
    (mapping : option (list (string * Py.value))) : M Z :=
  let mapping_items := match mapping with Some d => d | None => [] end in
  match key, mapping_items with
  | None, [] => raise DataError
  | _, _ =>
      let items := (match key with
                    | Some k => [(k, value)]
                    | None => []
                    end ++ mapping_items)%list in
      match encode_items items with
      | None => raise DataError
      | Some ritems =>
          execute_command (server.HSET name ritems) (server.do_hset name ritems)
      end
  end.

Definition get (name : string) : M (option raw) :=
  execute_command (server.GET name) (server.do_get name).

Definition hget (name key : string) : M (option raw) :=
  execute_command (server.HGET name key) (server.do_hget name key).

(** [hmget(name, keys)]: the keys, a list or a tuple, are sent as a list
    ([list_or_args]); a [keys] of [None] is sent as one argument that
    cannot be encoded. *)
Definition hmget (name : string) (keys : option Py.sequence)
  : M (list (option raw)) :=
  match keys with
  | None => raise DataError
  | Some ks =>
      execute_command (server.HMGET name (Py.elements ks))
        (server.do_hmget name (Py.elements ks))
  end.

Definition hgetall (name : string) : M (list (string * raw)) :=
  execute_command (server.HGETALL name) (server.do_hgetall name).

Definition hdel (name : string) (keys : list string) : M Z :=
  execute_command (server.HDEL name keys) (server.do_hdel name keys).

Definition delete (names : list string) : M Z :=
  execute_command (server.DEL names) (server.do_del names).

End Connection.
End reds.

(** ** Command models ([limeutils/redis/models.py])

    A command model is built from the arguments of a call; building it
    validates and normalizes them.  The records hold the fields the client
    reads; the validating constructors are an interface, since the module
    is not part of [redis.py]. *)

(** An argument that is one string or a sequence of strings. *)
Inductive str_or_seq : Type :=
| OneStr (s : string)
| Seq (l : list string).

Module models.

(** [StarterModel]: what every single-key command model carries. *)
Record StarterModel : Type := {
  key : string;
  pre : option string;
  ver : option string;
  ttl : option Z;
}.

Record SetModel : Type := {
  Set_base : StarterModel;
  val : Py.value;
  xx : bool;
  keepttl : bool;
}.

Record HsetModel : Type := {
  Hset_base : StarterModel;
  field : string;
  Hset_val : Py.value;
  mapping : option (list (string * Py.value));
}.

Record HmsetModel : Type := {
  Hmset_base : StarterModel;
  Hmset_mapping : list (string * Py.value);
}.

Record GetModel : Type := {
  Get_base : StarterModel;
  default : Py.value;
}.

Record HgetModel : Type := {
  Hget_base : StarterModel;
  Hget_default : Py.value;
}.

Record HmgetModel : Type := {
  Hmget_base : StarterModel;
  fields_ : option Py.sequence;
}.

Record HdelModel : Type := {
  Hdel_base : StarterModel;
  Hdel_fields_ : list string;
}.

Record DeleteModel : Type := {
  Delete_key : list string;
  Delete_pre : option string;
  Delete_ver : option string;
}.

(** The validating constructors, named after the calls in [redis.py]
    ([models.Set(key=.., val=.., ..)] and so on). *)
Class Validators : Type := {
  Set_ : string -> Py.value -> bool -> bool -> option Z ->
         option string -> option string -> validated SetModel;
  Hset : string -> string -> Py.value ->
         option (list (string * Py.value)) -> option Z ->
         option string -> option string -> validated HsetModel;
  Hmset : string -> list (string * Py.value) -> option Z ->
          option string -> option string -> validated HmsetModel;
  Get : string -> Py.value -> option string -> option string ->
        validated GetModel;
  Hget : string -> Py.value -> option string -> option string ->
         validated HgetModel;
  Hmget : string -> option Py.sequence -> option string ->
          option string -> validated HmgetModel;
  Hdel : string -> option str_or_seq -> option string -> option string ->
         validated HdelModel;
  Delete : str_or_seq -> option string -> option string ->
           validated DeleteModel;
}.

End models.

(** Every single-key model is a [StarterModel]. *)
Coercion models.Set_base : models.SetModel >-> models.StarterModel.
Coercion models.Hset_base : models.HsetModel >-> models.StarterModel.
Coercion models.Hmset_base : models.HmsetModel >-> models.StarterModel.
Coercion models.Get_base : models.GetModel >-> models.StarterModel.
Coercion models.Hget_base : models.HgetModel >-> models.StarterModel.
Coercion models.Hmget_base : models.HmgetModel >-> models.StarterModel.
Coercion models.Hdel_base : models.HdelModel >-> models.StarterModel.

(** Modelled from the spec: the normalization of an argument that is a
    string or a sequence; a string is coerced to a one-element sequence. *)
Definition to_seq (x : str_or_seq) : list string :=
  match x with
  | OneStr s => [s]
  | Seq l => l
  end.

(** Modelled from the spec: the validators of [limeutils/redis/models.py],
    which is not part of [redis.py].  Per the spec a normalizer passes the
    arguments of the call on ([pre], [ver] and [ttl] as given, unset when
    not given), coerces a single string to a one-element sequence for
    [hdel] and [delete], and rejects an [hdel] whose fields do not reduce
    to a non-empty sequence. *)
Definition spec_starter (key : string) (ttl : option Z)
    (pre ver : option string) : models.StarterModel :=
  {| models.key := key; models.pre := pre; models.ver := ver;
     models.ttl := ttl |}.

(** Modelled from the spec: [models.Hdel].  The fields must reduce to a
    non-empty sequence of strings; a single string is coerced to a
    one-element sequence. *)
Definition spec_Hdel (key : string) (fields : option str_or_seq)
    (pre ver : option string) : validated models.HdelModel :=
  match fields with
  | None => Invalid
  | Some x =>
      match to_seq x with
      | [] => Invalid
      | fs => Valid {| models.Hdel_base := spec_starter key None pre ver;
                       models.Hdel_fields_ := fs |}
      end
  end.

(** Modelled from the spec: the validating constructors of [models].  All
    but [Hdel] accept their arguments and pass them on; [Delete] normalizes
    its key to a sequence. *)
Definition spec_models : models.Validators := {|
  models.Set_ key val xx keepttl ttl pre ver :=
    Valid {| models.Set_base := spec_starter key ttl pre ver;
             models.val := val; models.xx := xx; models.keepttl := keepttl |};
  models.Hset key field val mapping ttl pre ver :=
    Valid {| models.Hset_base := spec_starter key ttl pre ver;
             models.field := field; models.Hset_val := val;
             models.mapping := mapping |};
  models.Hmset key mapping ttl pre ver :=
    Valid {| models.Hmset_base := spec_starter key ttl pre ver;
             models.Hmset_mapping := mapping |};
  models.Get key default pre ver :=
    Valid {| models.Get_base := spec_starter key None pre ver;
             models.default := default |};
  models.Hget key default pre ver :=
    Valid {| models.Hget_base := spec_starter key None pre ver;
             models.Hget_default := default |};
  models.Hmget key fields pre ver :=
    Valid {| models.Hmget_base := spec_starter key None pre ver;
             models.fields_ := fields |};
  models.Hdel := spec_Hdel;
  models.Delete key pre ver :=
    Valid {| models.Delete_key := to_seq key;
             models.Delete_pre := pre; models.Delete_ver := ver |};
|}.

(** ** The client: class [Redis] *)

Module Redis.

(** Instance attributes set in [__init__] ([self.pre], [self.ver]). *)
Record t : Type := {
  pre : string;
  ver : string;
}.

(** The class attribute [ttl], in seconds. *)
Definition ttl : Z := 1209600.

(** The methods take every argument explicitly; the defaults of the Python
    signatures are [val=''], [xx=False], [keepttl=False], [default=''] and
    [None] for [mapping], [fields], [ttl], [pre] and [ver]. *)
Section Methods.
Context `{C : Codec} `{V : models.Validators}.
Variable self : t.

(** [_cleankey]: the final key name, with prefix and/or version. *)
Definition _cleankey (data : models.StarterModel) : string :=
  let pre := Py.and_or (models.pre data) (Py.strip (pre self)) in
  let ver := Py.and_or (models.ver data) (Py.strip (ver self)) in
  let list_ := [pre; ver; models.key data] in
  let list_ := Py.filter_none list_ in
  Py.join ":" list_.

(** [set]: a conditional [SET], then the expiration; [True] on success. *)
Definition set (key : string) (val : Py.value) (xx keepttl : bool)
    (ttl_ : option Z) (pre ver : option string) : M Py.value :=
  let* data := validate (models.Set_ key val xx keepttl ttl_ pre ver) in
  let key := _cleankey data in
  let ttl := match models.ttl data with Some t => t | None => ttl end in
  let* ret_ := reds.set key (models.val data) (models.xx data)
                 (models.keepttl data) in
  let* _ := reds.expire key ttl in
  ret ret_.

(** [hset]: one field and/or a mapping, then the expiration; the number
    of fields created. *)
Definition hset (key field : string) (val : Py.value)
    (mapping : option (list (string * Py.value)))
    (ttl_ : option Z) (pre ver : option string) : M Z :=
  let* data := validate (models.Hset key field val mapping ttl_ pre ver) in
  let key := _cleankey data in
  let ttl := match models.ttl data with Some t => t | None => ttl end in
  let* ret_ := reds.hset key (Some (models.field data))
                 (models.Hset_val data) (models.mapping data) in
  let* _ := reds.expire key ttl in
  ret ret_.

(** [hmset]: [hset] in its mapping form; an empty mapping returns 0 at
    once ([if not mapping: return 0]). *)
Definition hmset (key : string) (mapping : list (string * Py.value))
    (ttl_ : option Z) (pre ver : option string) : M Z :=
  match mapping with
  | [] => ret 0
  | _ =>
      let* data := validate (models.Hmset key mapping ttl_ pre ver) in
      let key := _cleankey data in
      let ttl := match models.ttl data with Some t => t | None => ttl end in
      let* ret_ := reds.hset key None Py.VNone
                     (Some (models.Hmset_mapping data)) in
      let* _ := reds.expire key ttl in
      ret ret_
  end.

(** [get]: [val if val or val == 0 else default] on the decoded reply. *)
Definition get (key : string) (default : Py.value)
    (pre ver : option string) : M Py.value :=
  let* data := validate (models.Get key default pre ver) in
  let key := _cleankey data in
  let* val := reds.get key in
  let val := byte_conv val in
  ret (if Py.truthy val || Py.eqb val (Py.VInt 0) then val else default).

(** [hget]: as [get], on one field of a hash.  The model is built without
    the field. *)
Definition hget (key field : string) (default : Py.value)
    (pre ver : option string) : M Py.value :=
  let* data := validate (models.Hget key default pre ver) in
  let key := _cleankey data in
  let* val := reds.hget key field in
  let val := byte_conv val in
  ret (if Py.truthy val || Py.eqb val (Py.VInt 0) then val else default).

(** [hmget]: [fields] is [None] (all fields), a list or a tuple.  An empty
    list, and only a list, returns [{}] at once ([isinstance(fields, list)
    and not len(fields)]).  With fields, the replies to [data.fields_] are
    zipped with the [fields] of the call; without, the names and values of
    [HGETALL] are decoded. *)
Definition hmget (key : string) (fields : option Py.sequence)
    (pre ver : option string) : M (list (Py.value * Py.value)) :=
  match fields with
  | Some (Py.PyList []) => ret []
  | _ =>
      let* data := validate (models.Hmget key fields pre ver) in
      let key := _cleankey data in
      match fields with
      | Some fields =>
          let* val_list := reds.hmget key (models.fields_ data) in
          let v := List.map (fun x => byte_conv x) val_list in
          ret (Py.dict (Py.zip (List.map Py.VStr (Py.elements fields)) v))
      | None =>
          let* val_dict := reds.hgetall key in
          let k := List.map (fun x => byte_conv (Some (raw_of_str x)))
                     (List.map fst val_dict) in
          let v := List.map (fun x => byte_conv (Some x))
                     (List.map snd val_dict) in
          ret (Py.dict (Py.zip k v))
      end
  end.

(** [hdel]: the number of fields deleted. *)
Definition hdel (key : string) (fields : option str_or_seq)
    (pre ver : option string) : M Z :=
  let* data := validate (models.Hdel key fields pre ver) in
  let key := _cleankey data in
  let* count := reds.hdel key (models.Hdel_fields_ data) in
  ret count.

(** [delete]: each key of the model is composed in the loop body, by the
    same steps as [_cleankey], and appended to [cleaned]; the number of
    keys deleted. *)
Definition delete (key : str_or_seq) (pre_ ver_ : option string) : M Z :=
  let* data := validate (models.Delete key pre_ ver_) in
  let cleaned :=
    List.map (fun val =>
                let pre := Py.and_or (models.Delete_pre data)
                             (Py.strip (pre self)) in
                let ver := Py.and_or (models.Delete_ver data)
                             (Py.strip (ver self)) in
                let list_ := [pre; ver; val] in
                let list_ := Py.filter_none list_ in
                Py.join ":" list_)
             (models.Delete_key data) in
  let* count := reds.delete cleaned in
  ret count.

End Methods.
End Redis.

(** ** Key composition as the specification words it *)

Module KeyComposer.

(** [compose(instance_prefix, instance_version, call_prefix, call_version,
    base_key)] as computed by the client: [_cleankey] of an instance with
    the given prefix and version on a model with the per-call values. *)
Definition compose (instance_prefix instance_version call_prefix
    call_version base_key : string) : string :=
  Redis._cleankey
    {| Redis.pre := instance_prefix; Redis.ver := instance_version |}
    {| models.key := base_key; models.pre := Some call_prefix;
       models.ver := Some call_version; models.ttl := None |}.

Definition non_empty (s : string) : bool :=
  match s with
  | EmptyString => false
  | String _ _ => true
  end.

(** Leading whitespace removed from a list of characters. *)
Fixpoint drop_ws (l : list ascii) : list ascii :=
  match l with
  | [] => []
  | c :: l' => if Py.isspace c then drop_ws l' else l
  end.

(** Whitespace trimmed at both ends. *)
Definition trimmed (s : string) : string :=
  string_of_list_ascii
    (List.rev (drop_ws (List.rev (drop_ws (list_ascii_of_string s))))).

(** The per-call value if non-empty, else the trimmed instance value. *)
Definition effective (call_value instance_value : string) : string :=
  if non_empty call_value then call_value else trimmed instance_value.

Fixpoint drop_empty (l : list string) : list string :=
  match l with
  | [] => []
  | x :: l' => if non_empty x then x :: drop_empty l' else drop_empty l'
  end.

Fixpoint join_colon (l : list string) : string :=
  match l with
  | [] => ""
  | [x] => x
  | x :: l' => x +:+ ":" +:+ join_colon l'
  end.

(** The specification's algorithm: effective prefix and version, the
    ordered list of the three segments, empty ones dropped, joined with
    a colon. *)
Definition compose_spec (instance_prefix instance_version call_prefix
    call_version base_key : string) : string :=
  let effective_prefix := effective call_prefix instance_prefix in
  let effective_version := effective call_version instance_version in
  join_colon (drop_empty [effective_prefix; effective_version; base_key]).

End KeyComposer.

(** ** Validation errors *)

Module ValidationError.

(** The two ways a [ValidationError] is constructed: with a literal
    message, or with the ordered choices of an enumerated argument. *)
Inductive t : Type :=
| FreeForm (message : string)
| EnumeratedChoice (choices : list string).

(** Modelled from the spec: the list part of the message of an
    enumerated-choice error ([limeutils.ValidationError] is not part of
    [redis.py]; only its test is).  One choice stands alone, two are
    joined by [or], three or more are separated by commas with [, or]
    before the last. *)
Definition choices_phrase (choices : list string) : option string :=
  match List.rev choices with
  | [] => None
  | [c] => Some c
  | [c2; c1] => Some (c1 +:+ " or " +:+ c2)
  | cn :: front =>
      Some (String.concat ", " (List.rev front) +:+ ", or " +:+ cn)
  end.

(** Modelled from the spec: [ValidationError.message].  A free-form error
    gives its message back; an enumerated-choice error formats its
    choices.  The spec gives no message for an empty choice list. *)
Definition message (e : t) : option string :=
  match e with
  | FreeForm m => Some m
  | EnumeratedChoice choices =>
      match choices_phrase choices with
      | Some p => Some ("Arguments can only be: " +:+ p +:+ ".")
      | None => None
      end
  end.

End ValidationError.

(** ** Vocabulary of the properties *)

(** A validator set that rejects every call: the failure path of each
    command model, used to exercise what a call does when its arguments do
    not validate. *)
Definition reject_all : models.Validators := {|
  models.Set_ _ _ _ _ _ _ _ := Invalid;
  models.Hset _ _ _ _ _ _ _ := Invalid;
  models.Hmset _ _ _ _ _ := Invalid;
  models.Get _ _ _ _ := Invalid;
  models.Hget _ _ _ _ := Invalid;
  models.Hmget _ _ _ _ := Invalid;
  models.Hdel _ _ _ _ := Invalid;
  models.Delete _ _ _ := Invalid;
|}.

Section Properties.
Context `{C : Codec}.

Definition is_expire (c : server.command) : bool :=
  match c with
  | server.EXPIRE _ _ => true
  | _ => false
  end.

(** The server received the commands [sent], in this order, between the
    states [s] and [s']. *)
Definition received (s s' : server.t) (sent : list server.command) : Prop :=
  server.log s' = server.log s ++ sent.

(** Every key of the keyspace [m'] was in [m] with the same time to
    live. *)
Definition keeps_ttl (m m' : gmap string server.entry) : Prop :=
  forall (k : string) (e' : server.entry),
    m' !! k = Some e' ->
    exists e, m !! k = Some e /\ server.expire e = server.expire e'.

Definition ttl_preserved (s s' : server.t) : Prop :=
  keeps_ttl (server.db s) (server.db s').

(** Between [s] and [s'] the server received the write command [write]
    and then [EXPIRE k t], and if [k] is in the store its time to live
    is [t]. *)
Definition expiry_applied (s s' : server.t) (write : server.command)
    (k : string) (t : Z) : Prop :=
  received s s' [write; server.EXPIRE k t]
  /\ forall e, server.db s' !! k = Some e -> server.expire e = Some t.

(** The key holds no string (it is absent or holds a hash), so that hash
    commands on it are answered. *)
Definition hash_or_absent (s : server.t) (k : string) : Prop :=
  forall e, server.db s !! k = Some e ->
            exists h, server.value e = server.RHash h.

(** The reply to [GET k] on the keyspace of [s]. *)
Definition string_reply (s : server.t) (k : string) : option raw :=
  match server.db s !! k with
  | Some {| server.value := server.RString v |} => Some v
  | _ => None
  end.

(** The reply to [HGET k f] on the keyspace of [s]. *)
Definition field_reply (s : server.t) (k f : string) : option raw :=
  match server.db s !! k with
  | Some {| server.value := server.RHash h |} => server.hash_get h f
  | _ => None
  end.

End Properties.

(** The elements of a list in the order of their first occurrence. *)
Fixpoint uniq (l : list string) : list string :=
  match l with
  | [] => []
  | x :: l' => x :: List.filter (fun y => negb (String.eqb x y)) (uniq l')
  end.

(** The entry [hmget] builds for a requested field, [g] giving its value. *)
Definition field_pair (g : string -> Py.value) (f : string)
  : Py.value * Py.value :=
  (Py.VStr f, g f).

(** A field name appended to the names seen so far, unless it is one. *)
Definition add_unseen (seen : list string) (f : string) : list string :=
  if List.existsb (String.eqb f) seen then seen else seen ++ [f].

(** A client without prefix and version, and sample keyspaces. *)
Definition plain : Redis.t := {| Redis.pre := ""; Redis.ver := "" |}.

Definition empty_server : @server.t passthrough :=
  {| server.db := ∅; server.log := [] |}.

(** An entry of the pass-through keyspace. *)
Definition string_entry (v : Py.value) (ex : option Z)
  : @server.entry passthrough :=
  @server.Build_entry passthrough (@server.RString passthrough v) ex.

Definition hash_entry (h : list (string * Py.value)) (ex : option Z)
  : @server.entry passthrough :=
  @server.Build_entry passthrough (@server.RHash passthrough h) ex.

(** The key [k] holds the empty string and the hash [h] holds the field
    [f] with the empty string. *)
Definition empty_string_server : @server.t passthrough :=
  {| server.db := <["h" := hash_entry [("f", Py.VStr "")] None]>
                  (<["k" := string_entry (Py.VStr "") None]> ∅);
     server.log := [] |}.


Definition user_wire_server : @server.t wire :=
  {| server.db :=
       <["user" := @server.Build_entry wire
                     (@server.RHash wire [("username", Bytes "enchance");
                                          ("gender", Bytes "m")])
                     None]> ∅;
     server.log := [] |}.

(** Only the key [a] exists. *)
Definition only_a_server : @server.t passthrough :=
  {| server.db := <["a" := string_entry (Py.VInt 1) (Some 60)]> ∅;
     server.log := [] |}.

(** ** Vocabulary of the further properties *)

(** [Redis.__init__]: [pre] and [ver] are popped from the keyword arguments
    with [''] as default; an argument that is not given is [None] here.  The
    remaining arguments go to the connection. *)
Definition Redis__init__ (pre ver : option string) : Redis.t :=
  {| Redis.pre := default "" pre; Redis.ver := default "" ver |}.

(** The value the last binding of [f] in [items] gives it, if any. *)
Fixpoint assoc_last {A : Type} (items : list (string * A)) (f : string)
  : option A :=
  match items with
  | [] => None
  | (f', v) :: items' =>
      match assoc_last items' f with
      | Some w => Some w
      | None => if String.eqb f' f then Some v else None
      end
  end.

Section FurtherProperties.
Context `{C : Codec}.

(** The hash the key holds, without fields when the key is absent or holds
    a string. *)
Definition hash_at (s : server.t) (k : string) : list (string * raw) :=
  match server.db s !! k with
  | Some {| server.value := server.RHash h |} => h
  | _ => []
  end.

(** The key holds a string. *)
Definition holds_string (s : server.t) (k : string) : Prop :=
  exists v ex, server.db s !! k
               = Some {| server.value := server.RString v;
                         server.expire := ex |}.

(** The key holds a hash. *)
Definition holds_hash (s : server.t) (k : string) : Prop :=
  exists h ex, server.db s !! k
               = Some {| server.value := server.RHash h;
                         server.expire := ex |}.

(** The commands that only read. *)
Definition is_read (c : server.command) : bool :=
  match c with
  | server.GET _ | server.HGET _ _ | server.HMGET _ _ | server.HGETALL _ =>
      true
  | _ => false
  end.

End FurtherProperties.

(** * Verification *)

(** ** Key composition *)

Section KeyComposition.
Import KeyComposer.

Lemma lstrip_chars (s : string) :
  list_ascii_of_string (Py.lstrip s) = drop_ws (list_ascii_of_string s).
Proof.
  induction s as [|c s IH]; simpl; [reflexivity|].
  destruct (Py.isspace c); [exact IH | reflexivity].
Qed.

Lemma drop_ws_snoc (l : list ascii) (c : ascii) :
  drop_ws (l ++ [c]) =
  match drop_ws l with
  | [] => if Py.isspace c then [] else [c]
  | r => r ++ [c]
  end.
Proof.
  induction l as [|a l IH]; simpl.
  - destruct (Py.isspace c); reflexivity.
  - destruct (Py.isspace a); [exact IH | reflexivity].
Qed.

Lemma rstrip_chars (s : string) :
  list_ascii_of_string (Py.rstrip s) =
  List.rev (drop_ws (List.rev (list_ascii_of_string s))).
Proof.
  induction s as [|c s IH]; simpl; [reflexivity|].
  rewrite drop_ws_snoc.
  destruct (drop_ws (List.rev (list_ascii_of_string s))) as [|a r] eqn:E.
  - simpl in IH. destruct (Py.rstrip s); [|discriminate IH].
    destruct (Py.isspace c); reflexivity.
  - assert (Hne : Py.rstrip s <> EmptyString).
    { intros H0. rewrite H0 in IH. simpl in IH.
      symmetry in IH. apply (f_equal (@List.length ascii)) in IH.
      rewrite length_app in IH. simpl in IH. lia. }
    destruct (Py.rstrip s) as [|c' s'] eqn:E'; [congruence|].
    change (list_ascii_of_string (String c (String c' s')))
      with (c :: list_ascii_of_string (String c' s')).
    rewrite IH, rev_app_distr. reflexivity.
Qed.

Lemma strip_trimmed (s : string) : Py.strip s = trimmed s.
Proof.
  unfold Py.strip, trimmed.
  rewrite <- lstrip_chars, <- rstrip_chars.
  symmetry. apply string_of_list_ascii_of_string.
Qed.

Lemma eqb_empty_non_empty (s : string) :
  negb (String.eqb s "") = non_empty s.
Proof. destruct s; reflexivity. Qed.

Lemma and_or_effective (c : option string) (i : string) :
  Py.and_or c (Py.strip i) = effective (default "" c) i.
Proof.
  unfold Py.and_or, effective. rewrite strip_trimmed.
  destruct c as [[|a s]|]; reflexivity.
Qed.

Lemma filter_none_drop_empty (l : list string) :
  Py.filter_none l = drop_empty l.
Proof.
  unfold Py.filter_none.
  induction l as [|x l IH]; simpl; [reflexivity|].
  rewrite eqb_empty_non_empty, IH. reflexivity.
Qed.

Lemma join_join_colon (l : list string) : Py.join ":" l = join_colon l.
Proof.
  unfold Py.join.
  induction l as [|x [|y l] IH]; simpl in *; try reflexivity.
  rewrite IH. reflexivity.
Qed.

(** [_cleankey] computes the specification's composition. *)
Lemma cleankey_compose_spec (self : Redis.t) (data : models.StarterModel) :
  Redis._cleankey self data =
  compose_spec (Redis.pre self) (Redis.ver self)
    (default "" (models.pre data)) (default "" (models.ver data))
    (models.key data).
Proof.
  unfold Redis._cleankey, compose_spec.
  rewrite join_join_colon, filter_none_drop_empty, !and_or_effective.
  reflexivity.
Qed.

End KeyComposition.

(** C2: the composed key is the specification's composition: the per-call
    prefix if non-empty else the trimmed instance prefix, likewise for the
    version, the list of the three segments with the empty ones dropped,
    joined with a colon.  This holds for [compose] and for [_cleankey] on
    every model; the three sample keys come out as stated; and a non-empty
    per-call prefix is the first segment of the key whatever the instance
    prefix is. *)
Theorem compose_refines_spec :
  (forall ip iv cp cv k : string,
     KeyComposer.compose ip iv cp cv k = KeyComposer.compose_spec ip iv cp cv k)
  /\ (forall (self : Redis.t) (data : models.StarterModel),
        Redis._cleankey self data =
        KeyComposer.compose_spec (Redis.pre self) (Redis.ver self)
          (default "" (models.pre data)) (default "" (models.ver data))
          (models.key data))
  /\ KeyComposer.compose "" "" "" "" "k" = "k"
  /\ KeyComposer.compose "app" "" "" "" "k" = "app:k"
  /\ KeyComposer.compose "app" "v1" "" "" "k" = "app:v1:k"
  /\ (forall ip iv cp cv k : string,
        cp <> "" ->
        KeyComposer.compose ip iv cp cv k =
        KeyComposer.join_colon
          (cp :: KeyComposer.drop_empty [KeyComposer.effective cv iv; k])).
Proof.
  split; [|split; [|split; [|split; [|split]]]]; try reflexivity.
  - intros. unfold KeyComposer.compose. apply cleankey_compose_spec.
  - apply cleankey_compose_spec.
  - intros ip iv cp cv k Hcp. unfold KeyComposer.compose.
    rewrite cleankey_compose_spec. unfold KeyComposer.compose_spec.
    cbn [models.pre models.ver models.key Redis.pre Redis.ver default].
    destruct cp as [|a cp]; [congruence|]. reflexivity.
Qed.

Lemma compose_refines_spec_witness :
  KeyComposer.compose "app" "v1" "web" "" "k" = "web:v1:k".
Proof.
  exact (proj2 (proj2 (proj2 (proj2 (proj2 compose_refines_spec))))
           "app" "v1" "web" "" "k" ltac:(discriminate)).
Defined.

(** ** Validation error messages *)

Lemma choices_phrase_many (c1 c2 cn : string) (mid : list string) :
  ValidationError.choices_phrase (c1 :: c2 :: mid ++ [cn]) =
  Some (String.concat ", " (c1 :: c2 :: mid) +:+ ", or " +:+ cn).
Proof.
  unfold ValidationError.choices_phrase.
  assert (E : List.rev (c1 :: c2 :: mid ++ [cn]) =
              cn :: List.rev (c1 :: c2 :: mid)).
  { change (c1 :: c2 :: mid ++ [cn]) with ((c1 :: c2 :: mid) ++ [cn]).
    apply rev_unit. }
  rewrite E.
  assert (R : List.rev (List.rev (c1 :: c2 :: mid)) = c1 :: c2 :: mid)
    by apply rev_involutive.
  destruct (List.rev (c1 :: c2 :: mid)) as [|x [|y [|z front]]] eqn:F.
  - discriminate R.
  - discriminate R.
  - rewrite R. reflexivity.
  - rewrite R. reflexivity.
Qed.

(** C8: the message of a validation error.  A free-form error returns its
    constructor message unchanged; with one choice the message is
    "Arguments can only be: c.", with two "Arguments can only be: c1 or
    c2.", with three or more the choices but the last separated by commas,
    then ", or", the last choice and a period.  The four messages asserted
    by [test_exception] come out as written there. *)
Theorem validation_error_message :
  (forall m : string,
     ValidationError.message (ValidationError.FreeForm m) = Some m)
  /\ (forall c : string,
        ValidationError.message (ValidationError.EnumeratedChoice [c]) =
        Some ("Arguments can only be: " +:+ c +:+ "."))
  /\ (forall c1 c2 : string,
        ValidationError.message (ValidationError.EnumeratedChoice [c1; c2]) =
        Some ("Arguments can only be: " +:+ (c1 +:+ " or " +:+ c2) +:+ "."))
  /\ (forall (c1 c2 cn : string) (mid : list string),
        ValidationError.message
          (ValidationError.EnumeratedChoice (c1 :: c2 :: mid ++ [cn])) =
        Some ("Arguments can only be: " +:+
              (String.concat ", " (c1 :: c2 :: mid) +:+ ", or " +:+ cn)
              +:+ "."))
  /\ ValidationError.message (ValidationError.EnumeratedChoice ["a"; "b"]) =
     Some "Arguments can only be: a or b."
  /\ ValidationError.message
       (ValidationError.EnumeratedChoice ["a"; "b"; "c"]) =
     Some "Arguments can only be: a, b, or c."
  /\ ValidationError.message (ValidationError.EnumeratedChoice ["a"]) =
     Some "Arguments can only be: a."
  /\ ValidationError.message (ValidationError.FreeForm "This is it.") =
     Some "This is it.".
Proof.
  repeat split; try reflexivity.
  intros c1 c2 cn mid. unfold ValidationError.message.
  rewrite choices_phrase_many. reflexivity.
Qed.

(** ** Calls that never reach the server *)




Lemma bind_invalid `{C : Codec} {A B : Type} (k : A -> M B) (s : server.t) :
  bind (validate Invalid) k s = (Raise ValidationFailure, s).
Proof. reflexivity. Qed.

(** C9: when the command model of a call does not validate, the call raises
    the validation failure and the server state is the one before the call:
    nothing was sent, nothing written, expired or deleted.  For [hmset] and
    [hmget] the model is built after the empty-input test, so the statement
    is about the calls that build it. *)
Theorem validation_failure_leaves_store `{C : Codec} `{V : models.Validators}
    (self : Redis.t) (s : server.t) :
  (forall key val xx keepttl ttl pre ver,
     models.Set_ key val xx keepttl ttl pre ver = Invalid ->
     Redis.set self key val xx keepttl ttl pre ver s
     = (Raise ValidationFailure, s))
  /\ (forall key field val mapping ttl pre ver,
        models.Hset key field val mapping ttl pre ver = Invalid ->
        Redis.hset self key field val mapping ttl pre ver s
        = (Raise ValidationFailure, s))
  /\ (forall key mapping ttl pre ver,
        mapping <> [] ->
        models.Hmset key mapping ttl pre ver = Invalid ->
        Redis.hmset self key mapping ttl pre ver s
        = (Raise ValidationFailure, s))
  /\ (forall key default pre ver,
        models.Get key default pre ver = Invalid ->
        Redis.get self key default pre ver s = (Raise ValidationFailure, s))
  /\ (forall key field default pre ver,
        models.Hget key default pre ver = Invalid ->
        Redis.hget self key field default pre ver s
        = (Raise ValidationFailure, s))
  /\ (forall key fields pre ver,
        fields <> Some (Py.PyList []) ->
        models.Hmget key fields pre ver = Invalid ->
        Redis.hmget self key fields pre ver s = (Raise ValidationFailure, s))
  /\ (forall key fields pre ver,
        models.Hdel key fields pre ver = Invalid ->
        Redis.hdel self key fields pre ver s = (Raise ValidationFailure, s))
  /\ (forall key pre ver,
        models.Delete key pre ver = Invalid ->
        Redis.delete self key pre ver s = (Raise ValidationFailure, s)).
Proof.
  repeat split.
  - intros * H. unfold Redis.set. rewrite H. apply bind_invalid.
  - intros * H. unfold Redis.hset. rewrite H. apply bind_invalid.
  - intros * Hne H. unfold Redis.hmset. rewrite H.
    destruct mapping; [congruence | apply bind_invalid].
  - intros * H. unfold Redis.get. rewrite H. apply bind_invalid.
  - intros * H. unfold Redis.hget. rewrite H. apply bind_invalid.
  - intros * Hne H. unfold Redis.hmget. rewrite H.
    destruct fields as [[[|f fs]|fs]|]; [congruence | apply bind_invalid ..].
  - intros * H. unfold Redis.hdel. rewrite H. apply bind_invalid.
  - intros * H. unfold Redis.delete. rewrite H. apply bind_invalid.
Qed.

Lemma validation_failure_leaves_store_witness :
  let s := only_a_server in
  @Redis.set passthrough reject_all plain "a" (Py.VInt 2) false false
    (Some 5) None None s = (Raise ValidationFailure, s)
  /\ @Redis.hset passthrough reject_all plain "a" "f" (Py.VInt 2) None
       None None None s = (Raise ValidationFailure, s)
  /\ @Redis.hmset passthrough reject_all plain "a" [("f", Py.VInt 2)]
       None None None s = (Raise ValidationFailure, s)
  /\ @Redis.get passthrough reject_all plain "a" (Py.VStr "") None None s
     = (Raise ValidationFailure, s)
  /\ @Redis.hget passthrough reject_all plain "a" "f" (Py.VStr "") None None s
     = (Raise ValidationFailure, s)
  /\ @Redis.hmget passthrough reject_all plain "a" (Some (Py.PyTuple []))
       None None s = (Raise ValidationFailure, s)
  /\ @Redis.hdel passthrough spec_models plain "a" (Some (Seq [])) None None s
     = (Raise ValidationFailure, s)
  /\ @Redis.delete passthrough reject_all plain (OneStr "a") None None s
     = (Raise ValidationFailure, s).
Proof.
  intros s.
  pose proof (@validation_failure_leaves_store passthrough reject_all plain s)
    as (H1 & H2 & H3 & H4 & H5 & H6 & _ & H8).
  pose proof (@validation_failure_leaves_store passthrough spec_models plain s)
    as (_ & _ & _ & _ & _ & _ & H7 & _).
  split; [apply H1; reflexivity|].
  split; [apply H2; reflexivity|].
  split; [apply H3; [discriminate | reflexivity]|].
  split; [apply H4; reflexivity|].
  split; [apply H5; reflexivity|].
  split; [apply H6; [discriminate | reflexivity]|].
  split; [apply H7; reflexivity|].
  apply H8; reflexivity.
Defined.

(** ** Deleting does not touch expirations *)

Section DeleteFrame.
Context `{C : Codec}.

Lemma keeps_ttl_refl (m : gmap string server.entry) : keeps_ttl m m.
Proof. intros k e' H. exists e'. split; [exact H | reflexivity]. Qed.

Lemma keeps_ttl_trans (m1 m2 m3 : gmap string server.entry) :
  keeps_ttl m1 m2 -> keeps_ttl m2 m3 -> keeps_ttl m1 m3.
Proof.
  intros H12 H23 k e3 H3.
  destruct (H23 k e3 H3) as (e2 & H2 & E23).
  destruct (H12 k e2 H2) as (e1 & H1 & E12).
  exists e1. split; [exact H1 | congruence].
Qed.

Lemma keeps_ttl_delete (m : gmap string server.entry) (name : string) :
  keeps_ttl m (delete name m).
Proof.
  intros k e' H. destruct (decide (name = k)) as [->|Hne].
  - rewrite lookup_delete_eq in H. discriminate.
  - rewrite lookup_delete_ne in H by exact Hne.
    exists e'. split; [exact H | reflexivity].
Qed.

Lemma keeps_ttl_insert (m : gmap string server.entry) (name : string)
    (e0 e1 : server.entry) :
  m !! name = Some e0 -> server.expire e0 = server.expire e1 ->
  keeps_ttl m (<[name := e1]> m).
Proof.
  intros H0 E k e' H. destruct (decide (name = k)) as [->|Hne].
  - rewrite lookup_insert_eq in H. injection H as <-.
    exists e0. split; assumption.
  - rewrite lookup_insert_ne in H by exact Hne.
    exists e'. split; [exact H | reflexivity].
Qed.

Lemma do_hdel_keeps_ttl (name : string) (fields : list string)
    (m : gmap string server.entry) :
  keeps_ttl m (snd (server.do_hdel name fields m)).
Proof.
  unfold server.do_hdel.
  destruct fields as [|f fs]; [apply keeps_ttl_refl|].
  destruct (m !! name) as [[[v|h0] ex]|] eqn:E;
    [apply keeps_ttl_refl | | apply keeps_ttl_refl].
  destruct (server.hash_del_all h0 (f :: fs)) as [[|p h] n]; cbn [snd].
  - apply keeps_ttl_delete.
  - eapply keeps_ttl_insert; [exact E | reflexivity].
Qed.

Lemma del_all_keeps_ttl (names : list string) (m : gmap string server.entry) :
  keeps_ttl m (fst (server.del_all names m)).
Proof.
  revert m. induction names as [|n names IH]; intros m; simpl.
  - apply keeps_ttl_refl.
  - destruct (m !! n) as [e|] eqn:E.
    + specialize (IH (delete n m)).
      destruct (server.del_all names (delete n m)) as [m2 k]. simpl in *.
      eapply keeps_ttl_trans; [apply keeps_ttl_delete | exact IH].
    + specialize (IH m).
      destruct (server.del_all names m) as [m2 k]. simpl in *. exact IH.
Qed.

Lemma do_del_keeps_ttl (names : list string) (m : gmap string server.entry) :
  keeps_ttl m (snd (server.do_del names m)).
Proof.
  unfold server.do_del. destruct names as [|n names]; [apply keeps_ttl_refl|].
  pose proof (del_all_keeps_ttl (n :: names) m) as H.
  destruct (server.del_all (n :: names) m) as [m' k]. exact H.
Qed.

(** What one command does to the state: the command is recorded and the
    keyspace is the one its semantics gives. *)
Lemma execute_command_state {A : Type} (c : server.command)
    (run : gmap string server.entry -> result A * gmap string server.entry)
    (s : server.t) :
  reds.execute_command c run s =
  (fst (run (server.db s)),
   {| server.db := snd (run (server.db s));
      server.log := server.log s ++ [c] |}).
Proof.
  unfold reds.execute_command. destruct (run (server.db s)); reflexivity.
Qed.

End DeleteFrame.

Lemma bind_ret_state `{C : Codec} {A B : Type} (m : M A) (f : A -> B)
    (s : server.t) :
  snd (bind m (fun x => ret (f x)) s) = snd (m s).
Proof. unfold bind, ret. destruct (m s) as [[a|e] s']; reflexivity. Qed.

Section DeleteState.
Context `{C : Codec} `{V : models.Validators}.
Variable self : Redis.t.

(** The state [hdel] leaves: untouched when the model does not validate,
    else the one after a single [HDEL] on the composed key. *)
Lemma hdel_state (key : string) (fields : option str_or_seq)
    (pre ver : option string) (s : server.t) :
  snd (Redis.hdel self key fields pre ver s) =
  match models.Hdel key fields pre ver with
  | Invalid => s
  | Valid data =>
      let k := Redis._cleankey self data in
      let fs := models.Hdel_fields_ data in
      {| server.db := snd (server.do_hdel k fs (server.db s));
         server.log := server.log s ++ [server.HDEL k fs] |}
  end.
Proof.
  unfold Redis.hdel.
  destruct (models.Hdel key fields pre ver) as [data|]; cbn [validate].
  - unfold bind at 1, ret at 1. rewrite (bind_ret_state _ (fun x => x)).
    unfold reds.hdel. rewrite execute_command_state. reflexivity.
  - reflexivity.
Qed.

(** The keys [delete] sends, composed one by one. *)
Lemma delete_state (key : str_or_seq) (pre ver : option string)
    (s : server.t) :
  snd (Redis.delete self key pre ver s) =
  match models.Delete key pre ver with
  | Invalid => s
  | Valid data =>
      let cleaned :=
        List.map (fun val =>
                    Redis._cleankey self
                      {| models.key := val;
                         models.pre := models.Delete_pre data;
                         models.ver := models.Delete_ver data;
                         models.ttl := None |})
                 (models.Delete_key data) in
      {| server.db := snd (server.do_del cleaned (server.db s));
         server.log := server.log s ++ [server.DEL cleaned] |}
  end.
Proof.
  unfold Redis.delete.
  destruct (models.Delete key pre ver) as [data|]; cbn [validate].
  - unfold bind at 1, ret at 1. rewrite (bind_ret_state _ (fun x => x)).
    unfold reds.delete. rewrite execute_command_state. reflexivity.
  - reflexivity.
Qed.

End DeleteState.

(** C10: neither [hdel] nor [delete] applies or modifies an expiration.
    After either call every key still in the store has the time to live it
    had before, and no [EXPIRE] is among the commands the call sent. *)
Theorem hdel_delete_keep_ttl `{C : Codec} `{V : models.Validators}
    (self : Redis.t) (s : server.t) :
  (forall key fields pre ver,
     let s' := snd (Redis.hdel self key fields pre ver s) in
     ttl_preserved s s'
     /\ exists sent, received s s' sent
                     /\ List.existsb is_expire sent = false)
  /\ (forall key pre ver,
        let s' := snd (Redis.delete self key pre ver s) in
        ttl_preserved s s'
        /\ exists sent, received s s' sent
                        /\ List.existsb is_expire sent = false).
Proof.
  split.
  - intros key fields pre ver s'. subst s'. rewrite hdel_state.
    destruct (models.Hdel key fields pre ver) as [data|]; cbv zeta.
    + split.
      * unfold ttl_preserved. cbn [server.db]. apply do_hdel_keeps_ttl.
      * eexists. split; [unfold received; cbn [server.log]; reflexivity|].
        reflexivity.
    + split; [apply keeps_ttl_refl|].
      exists []. split; [unfold received; symmetry; apply app_nil_r|].
      reflexivity.
  - intros key pre ver s'. subst s'. rewrite delete_state.
    destruct (models.Delete key pre ver) as [data|]; cbv zeta.
    + split.
      * unfold ttl_preserved. cbn [server.db]. apply do_del_keeps_ttl.
      * eexists. split; [unfold received; cbn [server.log]; reflexivity|].
        reflexivity.
    + split; [apply keeps_ttl_refl|].
      exists []. split; [unfold received; symmetry; apply app_nil_r|].
      reflexivity.
Qed.

(** ** Expiration on the write paths *)

Section WritePaths.
Context `{C : Codec}.

Lemma do_set_ok (name : string) (v : raw) (xx keepttl : bool)
    (m : gmap string server.entry) :
  exists b, fst (server.do_set name v xx keepttl m) = Ok b.
Proof.
  unfold server.do_set.
  destruct (m !! name); [|destruct xx]; eexists; reflexivity.
Qed.

Lemma do_expire_ok (name : string) (time : Z) (m : gmap string server.entry) :
  exists b, fst (server.do_expire name time m) = Ok b.
Proof.
  unfold server.do_expire.
  destruct (m !! name); [destruct (time <=? 0)|]; eexists; reflexivity.
Qed.

(** After [EXPIRE name time] the key, if there, has [time] to live. *)
Lemma do_expire_ttl (name : string) (time : Z) (m : gmap string server.entry)
    (e : server.entry) :
  snd (server.do_expire name time m) !! name = Some e ->
  server.expire e = Some time.
Proof.
  unfold server.do_expire.
  destruct (m !! name) as [e0|] eqn:E; [destruct (time <=? 0)|]; cbn [snd].
  - rewrite lookup_delete_eq. discriminate.
  - rewrite lookup_insert_eq. intros [= <-]. reflexivity.
  - rewrite E. discriminate.
Qed.

Lemma do_hset_ok (name : string) (items : list (string * raw))
    (m : gmap string server.entry) :
  items <> [] ->
  (forall e, m !! name = Some e -> exists h, server.value e = server.RHash h) ->
  exists n, fst (server.do_hset name items m) = Ok n.
Proof.
  intros Hne Hty. unfold server.do_hset.
  destruct items as [|i items]; [congruence|].
  destruct (m !! name) as [[[v|h0] ex]|] eqn:E.
  - destruct (Hty _ eq_refl) as [h Hh]. discriminate Hh.
  - destruct (server.hash_set_all h0 (i :: items)). eexists; reflexivity.
  - destruct (server.hash_set_all [] (i :: items)). eexists; reflexivity.
Qed.

(** A write that succeeded, followed by [expire]: the call returns what
    the write returned, one [EXPIRE] was sent after the write, and the
    key, if there, has the requested time to live. *)
Lemma write_then_expire {A : Type} (w : M A) (k : string) (t : Z)
    (s s1 : server.t) (a : A) :
  w s = (Ok a, s1) ->
  exists s2,
    (let* ret_ := w in let* _ := reds.expire k t in ret ret_) s = (Ok a, s2)
    /\ server.log s2 = server.log s1 ++ [server.EXPIRE k t]
    /\ forall e, server.db s2 !! k = Some e -> server.expire e = Some t.
Proof.
  intros Hw. unfold bind at 1. rewrite Hw. unfold bind, ret, reds.expire.
  rewrite execute_command_state.
  destruct (do_expire_ok k t (server.db s1)) as [b Hb]. rewrite Hb.
  eexists. split; [reflexivity|]. split; [reflexivity|].
  cbn [server.db]. apply do_expire_ttl.
Qed.

Lemma reds_set_ok (name : string) (value : Py.value) (v : raw)
    (xx keepttl : bool) (s : server.t) :
  encode value = Some v ->
  exists r s1, reds.set name value xx keepttl s = (Ok r, s1)
               /\ server.log s1 = server.log s ++ [server.SET name v xx keepttl].
Proof.
  intros Henc. unfold reds.set. rewrite Henc. unfold bind, ret.
  rewrite execute_command_state.
  destruct (do_set_ok name v xx keepttl (server.db s)) as [b Hb]. rewrite Hb.
  eexists _, _. split; reflexivity.
Qed.

Lemma reds_hset_ok (name : string) (key : option string) (value : Py.value)
    (mapping : option (list (string * Py.value)))
    (items : list (string * raw)) (s : server.t) :
  reds.encode_items
    (match key with Some k => [(k, value)] | None => [] end
     ++ default [] mapping) = Some items ->
  items <> [] ->
  hash_or_absent s name ->
  exists r s1, reds.hset name key value mapping s = (Ok r, s1)
               /\ server.log s1 = server.log s ++ [server.HSET name items].
Proof.
  intros Henc Hne Hty. unfold reds.hset.
  change (match mapping with Some d => d | None => [] end)
    with (default [] mapping) in *.
  destruct key as [k|].
  - rewrite Henc, execute_command_state.
    destruct (do_hset_ok name items (server.db s) Hne Hty) as [n Hn].
    rewrite Hn. eexists _, _. split; reflexivity.
  - destruct (default [] mapping) as [|p l] eqn:E.
    + simpl in Henc. injection Henc as <-. congruence.
    + rewrite Henc, execute_command_state.
      destruct (do_hset_ok name items (server.db s) Hne Hty) as [n Hn].
      rewrite Hn. eexists _, _. split; reflexivity.
Qed.

Lemma encode_items_cons (p : string * Py.value)
    (l : list (string * Py.value)) (items : list (string * raw)) :
  reds.encode_items (p :: l) = Some items -> items <> [].
Proof.
  destruct p as [f v]. simpl.
  destruct (encode v); [|discriminate].
  destruct (reds.encode_items l); [|discriminate].
  intros [= <-]. discriminate.
Qed.

End WritePaths.

(** C3: every write applies the expiration.  For [set], and for [hset] and
    [hmset] with a non-empty mapping, whenever the write is accepted (the
    values can be encoded and, for the hash commands, the key holds no
    string) the call returns, the server received the write followed by
    [EXPIRE] on the composed key with the per-call [ttl] when one was
    supplied and 1,209,600 otherwise, and the key, if it is in the store,
    has that time to live.  Nothing is assumed about the key being there
    before, nor about [xx]: the expiration is sent in either case. *)
Theorem writes_apply_expiry `{C : Codec} (self : Redis.t) (s : server.t) :
  (forall key val xx keepttl ttl pre ver v,
     encode val = Some v ->
     let k := Redis._cleankey self (spec_starter key ttl pre ver) in
     let t := match ttl with Some t => t | None => 1209600 end in
     exists r s',
       Redis.set (V:=spec_models) self key val xx keepttl ttl pre ver s
       = (Ok r, s')
       /\ expiry_applied s s' (server.SET k v xx keepttl) k t)
  /\ (forall key field val mapping ttl pre ver items,
        reds.encode_items ((field, val) :: default [] mapping) = Some items ->
        let k := Redis._cleankey self (spec_starter key ttl pre ver) in
        let t := match ttl with Some t => t | None => 1209600 end in
        hash_or_absent s k ->
        exists r s',
          Redis.hset (V:=spec_models) self key field val mapping ttl pre ver s
          = (Ok r, s')
          /\ expiry_applied s s' (server.HSET k items) k t)
  /\ (forall key mapping ttl pre ver items,
        mapping <> [] ->
        reds.encode_items mapping = Some items ->
        let k := Redis._cleankey self (spec_starter key ttl pre ver) in
        let t := match ttl with Some t => t | None => 1209600 end in
        hash_or_absent s k ->
        exists r s',
          Redis.hmset (V:=spec_models) self key mapping ttl pre ver s
          = (Ok r, s')
          /\ expiry_applied s s' (server.HSET k items) k t).
Proof.
  split; [|split].
  - intros key val xx keepttl ttl pre ver v Henc k t.
    destruct (reds_set_ok k val v xx keepttl s Henc) as (r & s1 & Hw & Hlog).
    destruct (write_then_expire _ k t s s1 r Hw) as (s2 & Hcall & Hlog2 & Httl).
    exists r, s2. split.
    + unfold Redis.set. cbn [models.Set_ spec_models validate].
      unfold bind at 1, ret at 1.
      cbn [models.val models.xx models.keepttl models.Set_base models.ttl
           spec_starter].
      fold k. destruct ttl; exact Hcall.
    + split; [|exact Httl].
      unfold received. rewrite Hlog2, Hlog, <- app_assoc. reflexivity.
  - intros key field val mapping ttl pre ver items Henc k t Hty.
    pose proof (encode_items_cons _ _ _ Henc) as Hne.
    destruct (reds_hset_ok k (Some field) val mapping items s Henc Hne Hty)
      as (r & s1 & Hw & Hlog).
    destruct (write_then_expire _ k t s s1 r Hw) as (s2 & Hcall & Hlog2 & Httl).
    exists r, s2. split.
    + unfold Redis.hset. cbn [models.Hset spec_models validate].
      unfold bind at 1, ret at 1.
      cbn [models.field models.Hset_val models.mapping models.Hset_base
           models.ttl spec_starter].
      fold k. destruct ttl; exact Hcall.
    + split; [|exact Httl].
      unfold received. rewrite Hlog2, Hlog, <- app_assoc. reflexivity.
  - intros key mapping ttl pre ver items Hm Henc k t Hty.
    destruct mapping as [|p mapping]; [congruence|].
    pose proof (encode_items_cons _ _ _ Henc) as Hne.
    destruct (reds_hset_ok k None Py.VNone (Some (p :: mapping)) items s
                Henc Hne Hty) as (r & s1 & Hw & Hlog).
    destruct (write_then_expire _ k t s s1 r Hw) as (s2 & Hcall & Hlog2 & Httl).
    exists r, s2. split.
    + unfold Redis.hmset. cbn [models.Hmset spec_models validate].
      unfold bind at 1, ret at 1.
      cbn [models.Hmset_mapping models.Hmset_base models.ttl spec_starter].
      fold k. destruct ttl; exact Hcall.
    + split; [|exact Httl].
      unfold received. rewrite Hlog2, Hlog, <- app_assoc. reflexivity.
Qed.

Lemma writes_apply_expiry_witness :
  (exists r s',
     @Redis.set passthrough spec_models plain "k" (Py.VStr "v") true false
       (Some 30) None None empty_server = (Ok r, s')
     /\ expiry_applied empty_server s'
          (@server.SET passthrough "k" (Py.VStr "v") true false) "k" 30)
  /\ (exists r s',
        @Redis.hset passthrough spec_models plain "h" "f" (Py.VInt 1) None
          None None None only_a_server = (Ok r, s')
        /\ expiry_applied only_a_server s'
             (@server.HSET passthrough "h" [("f", Py.VInt 1)]) "h" 1209600)
  /\ (exists r s',
        @Redis.hmset passthrough spec_models plain "h" [("f", Py.VInt 1)]
          (Some 5) None None only_a_server = (Ok r, s')
        /\ expiry_applied only_a_server s'
             (@server.HSET passthrough "h" [("f", Py.VInt 1)]) "h" 5).
Proof.
  assert (Hh : hash_or_absent only_a_server "h").
  { intros e He. vm_compute in He. discriminate He. }
  split; [|split].
  - exact (proj1 (@writes_apply_expiry passthrough plain empty_server)
             "k" (Py.VStr "v") true false (Some 30) None None (Py.VStr "v")
             eq_refl).
  - exact (proj1 (proj2 (@writes_apply_expiry passthrough plain only_a_server))
             "h" "f" (Py.VInt 1) None None None None [("f", Py.VInt 1)]
             eq_refl Hh).
  - exact (proj2 (proj2 (@writes_apply_expiry passthrough plain only_a_server))
             "h" [("f", Py.VInt 1)] (Some 5) None None [("f", Py.VInt 1)]
             ltac:(discriminate) eq_refl Hh).
Defined.

(** ** Reads: the default and the round trip *)

(** The test [val or val == 0] fails exactly on [None] and on the empty
    string. *)
Lemma truthy_or_zero_false (v : Py.value) :
  Py.truthy v || Py.eqb v (Py.VInt 0) = false <->
  v = Py.VNone \/ v = Py.VStr "".
Proof.
  split.
  - destruct v as [|b|z|f|s]; cbn.
    + auto.
    + destruct b; discriminate.
    + destruct (z =? 0); discriminate.
    + destruct f; cbn; discriminate.
    + destruct s; [auto | discriminate].
  - intros [-> | ->]; reflexivity.
Qed.

Section Reads.
Context `{C : Codec}.
Variable self : Redis.t.

(** What [get] does once its model is built: one [GET] on the composed
    key, the reply decoded, the default in place of a decoded value that
    is neither truthy nor zero. *)
Lemma get_run (key : string) (default : Py.value) (pre ver : option string)
    (s : server.t) :
  Redis.get (V:=spec_models) self key default pre ver s =
  let k := Redis._cleankey self (spec_starter key None pre ver) in
  let s' := {| server.db := server.db s;
               server.log := server.log s ++ [server.GET k] |} in
  match server.db s !! k with
  | Some {| server.value := server.RHash _ |} => (Raise ResponseError, s')
  | _ =>
      let val := byte_conv (string_reply s k) in
      (Ok (if Py.truthy val || Py.eqb val (Py.VInt 0) then val else default),
       s')
  end.
Proof.
  unfold Redis.get. cbn [models.Get spec_models validate].
  unfold bind at 1, ret at 1. cbn [models.Get_base].
  unfold bind, ret, reds.get. rewrite execute_command_state.
  unfold server.do_get, string_reply.
  destruct (server.db s !! _) as [[[v|h] ex]|]; reflexivity.
Qed.

Lemma hget_run (key field : string) (default : Py.value)
    (pre ver : option string) (s : server.t) :
  Redis.hget (V:=spec_models) self key field default pre ver s =
  let k := Redis._cleankey self (spec_starter key None pre ver) in
  let s' := {| server.db := server.db s;
               server.log := server.log s ++ [server.HGET k field] |} in
  match server.db s !! k with
  | Some {| server.value := server.RString _ |} => (Raise ResponseError, s')
  | _ =>
      let val := byte_conv (field_reply s k field) in
      (Ok (if Py.truthy val || Py.eqb val (Py.VInt 0) then val else default),
       s')
  end.
Proof.
  unfold Redis.hget. cbn [models.Hget spec_models validate].
  unfold bind at 1, ret at 1. cbn [models.Hget_base].
  unfold bind, ret, reds.hget. rewrite execute_command_state.
  unfold server.do_hget, field_reply.
  destruct (server.db s !! _) as [[[v|h] ex]|]; reflexivity.
Qed.

(** [set] without [xx] and without [ttl]: the write is accepted, the call
    returns [True], and the composed key holds the encoded value with the
    default time to live. *)
Lemma set_run (key : string) (val : Py.value) (v : raw) (keepttl : bool)
    (pre ver : option string) (s : server.t) :
  encode val = Some v ->
  exists s1,
    Redis.set (V:=spec_models) self key val false keepttl None pre ver s
    = (Ok (Py.VBool true), s1)
    /\ server.db s1 !! Redis._cleankey self (spec_starter key None pre ver)
       = Some {| server.value := server.RString v;
                 server.expire := Some 1209600 |}.
Proof.
  intros Henc. unfold Redis.set. cbn [models.Set_ spec_models validate].
  unfold bind at 1, ret at 1.
  cbn [models.val models.xx models.keepttl models.Set_base models.ttl
       spec_starter].
  set (k := Redis._cleankey self _).
  unfold reds.set. rewrite Henc. unfold bind, ret, reds.expire.
  rewrite !execute_command_state. cbn [server.db server.log fst snd].
  assert (Hset : exists ex,
             server.do_set k v false keepttl (server.db s) =
             (Ok true, <[k := {| server.value := server.RString v;
                                 server.expire := ex |}]> (server.db s))).
  { unfold server.do_set. destruct (server.db s !! k); eexists; reflexivity. }
  destruct Hset as [ex Hset]. rewrite Hset. cbn [fst snd].
  rewrite execute_command_state. cbn [server.db server.log].
  unfold server.do_expire, Redis.ttl. rewrite lookup_insert_eq.
  cbn [Z.leb Z.compare fst snd server.value].
  eexists. split; [reflexivity|]. cbn [server.db].
  apply lookup_insert_eq.
Qed.

(** [get] right after such a [set], for any codec: the value comes back
    as the codec decodes its own encoding, subject to the default rule. *)
Lemma set_get_codec (key : string) (val default : Py.value) (v : raw)
    (keepttl : bool) (pre ver : option string) (s : server.t) :
  encode val = Some v ->
  exists s1 s2,
    Redis.set (V:=spec_models) self key val false keepttl None pre ver s
    = (Ok (Py.VBool true), s1)
    /\ Redis.get (V:=spec_models) self key default pre ver s1
       = (Ok (let d := byte_conv (Some v) in
              if Py.truthy d || Py.eqb d (Py.VInt 0) then d else default),
          s2).
Proof.
  intros Henc.
  destruct (set_run key val v keepttl pre ver s Henc) as (s1 & Hset & Hk).
  exists s1. eexists. split; [exact Hset|].
  rewrite get_run. cbv zeta. unfold string_reply. rewrite Hk. reflexivity.
Qed.

End Reads.

(** A present value is handed back unchanged unless it decodes to the empty
    string (or to [None]), in which case the caller's default takes its
    place: the rule of [get], for any codec. *)
Lemma get_present `{C : Codec} (self : Redis.t) (key : string)
    (default : Py.value) (pre ver : option string) (s : server.t)
    (v : raw) (ex : option Z) :
  server.db s !! Redis._cleankey self (spec_starter key None pre ver)
  = Some {| server.value := server.RString v; server.expire := ex |} ->
  let got := fst (Redis.get (V:=spec_models) self key default pre ver s) in
  (byte_conv (Some v) = Py.VNone \/ byte_conv (Some v) = Py.VStr "" ->
   got = Ok default)
  /\ (~ (byte_conv (Some v) = Py.VNone \/ byte_conv (Some v) = Py.VStr "") ->
      got = Ok (byte_conv (Some v))).
Proof.
  intros Hk got. subst got. rewrite get_run. cbv zeta.
  unfold string_reply. rewrite Hk. cbn [fst].
  destruct (Py.truthy (byte_conv (Some v))
            || Py.eqb (byte_conv (Some v)) (Py.VInt 0)) eqn:E.
  - split; [|reflexivity].
    intros H. apply truthy_or_zero_false in H. congruence.
  - apply truthy_or_zero_false in E. split; [reflexivity | contradiction].
Qed.

(** C1 (the code departs from the claim): a key that is present with the
    empty string, and a hash field that is present with the empty string,
    are read as the caller's default ['D'], not as the empty string they
    hold.  The same happens right after [set('k', '')]. *)
Theorem get_present_empty_string_gives_default :
  string_reply empty_string_server "k" = Some (Py.VStr "")
  /\ fst (@Redis.get passthrough spec_models plain "k" (Py.VStr "D")
            None None empty_string_server) = Ok (Py.VStr "D")
  /\ field_reply empty_string_server "h" "f" = Some (Py.VStr "")
  /\ fst (@Redis.hget passthrough spec_models plain "h" "f" (Py.VStr "D")
            None None empty_string_server) = Ok (Py.VStr "D")
  /\ fst ((let* _ := @Redis.set passthrough spec_models plain "k"
                       (Py.VStr "") false false None None None in
           @Redis.get passthrough spec_models plain "k" (Py.VStr "D")
             None None) empty_server) = Ok (Py.VStr "D").
Proof. repeat split; vm_compute; reflexivity. Qed.

(** A present zero, in contrast, is handed back as it is. *)
Example get_present_zero_kept :
  fst ((let* _ := @Redis.set passthrough spec_models plain "k"
                    (Py.VInt 0) false false None None None in
        @Redis.get passthrough spec_models plain "k" (Py.VStr "D")
          None None) empty_server) = Ok (Py.VInt 0).
Proof. vm_compute. reflexivity. Qed.

(** Two values with the same wire form read back as the same value, so at
    most one of them reads back as itself. *)
Lemma shared_wire_form `{C : Codec} (self : Redis.t) (key : string)
    (v w default : Py.value) (r : raw) (keepttl : bool)
    (pre ver : option string) (s : server.t) :
  encode v = Some r -> encode w = Some r ->
  exists sv sv' sw sw' got,
    Redis.set (V:=spec_models) self key v false keepttl None pre ver s
    = (Ok (Py.VBool true), sv)
    /\ Redis.get (V:=spec_models) self key default pre ver sv = (Ok got, sv')
    /\ Redis.set (V:=spec_models) self key w false keepttl None pre ver s
       = (Ok (Py.VBool true), sw)
    /\ Redis.get (V:=spec_models) self key default pre ver sw = (Ok got, sw').
Proof.
  intros Hv Hw.
  destruct (set_get_codec self key v default r keepttl pre ver s Hv)
    as (sv & sv' & Hsv & Hgv).
  destruct (set_get_codec self key w default r keepttl pre ver s Hw)
    as (sw & sw' & Hsw & Hgw).
  exists sv, sv', sw, sw'. eexists.
  split; [exact Hsv|]. split; [exact Hgv|]. split; [exact Hsw | exact Hgw].
Qed.

(** On the byte-like wire every integer reads back as itself. *)
Lemma int_of_bytes_str_of_int (z : Z) : int_of_bytes (str_of_int z) = Some z.
Proof.
  unfold int_of_bytes, str_of_int.
  rewrite NilZero.isi.
  - rewrite DecimalZ.of_to, String.eqb_refl. reflexivity.
  - destruct z; cbn; intros H; try discriminate H.
    injection H as H. exact (DecimalPos.Unsigned.to_uint_nonnil _ H).
  - destruct z; cbn; intros H; try discriminate H.
    injection H as H. exact (DecimalPos.Unsigned.to_uint_nonnil _ H).
Qed.

Lemma wire_roundtrips_int (z : Z) :
  @byte_conv wire (@encode wire (Py.VInt z)) = Py.VInt z.
Proof. cbn. rewrite int_of_bytes_str_of_int. reflexivity. Qed.

Lemma wire_roundtrips_float (f : spec_float) :
  @byte_conv wire (@encode wire (Py.VFloat f)) = Py.VFloat f.
Proof. reflexivity. Qed.

(** A string reads back as itself unless it is the decimal form of an
    integer, and then it reads back as that integer. *)
Lemma wire_roundtrips_str (b : string) :
  @byte_conv wire (@encode wire (Py.VStr b)) =
  match int_of_bytes b with
  | Some z => Py.VInt z
  | None => Py.VStr b
  end.
Proof. reflexivity. Qed.




(** ** [hmget] with explicit fields *)

Section DictOfFields.
Variable g : string -> Py.value.

Lemma zip_fields (fs : list string) :
  Py.zip (List.map Py.VStr fs) (List.map g fs) = List.map (field_pair g) fs.
Proof.
  unfold Py.zip. induction fs as [|f fs IH]; simpl; [reflexivity|].
  rewrite IH. reflexivity.
Qed.

Lemma setitem_field (seen : list string) (f : string) :
  Py.dict_setitem (List.map (field_pair g) seen) (Py.VStr f) (g f) =
  List.map (field_pair g) (add_unseen seen f).
Proof.
  unfold add_unseen. induction seen as [|a seen IH]; simpl; [reflexivity|].
  rewrite (String.eqb_sym f a).
  destruct (String.eqb a f) eqn:E; simpl.
  - apply String.eqb_eq in E. subst a. reflexivity.
  - rewrite IH. destruct (List.existsb (String.eqb f) seen); reflexivity.
Qed.

Lemma dict_fields_from (fs seen : list string) :
  List.fold_left (fun d kv => Py.dict_setitem d (fst kv) (snd kv))
    (List.map (field_pair g) fs) (List.map (field_pair g) seen) =
  List.map (field_pair g) (List.fold_left add_unseen fs seen).
Proof.
  revert seen. induction fs as [|f fs IH]; intros seen; simpl;
    [reflexivity|].
  rewrite setitem_field. apply IH.
Qed.

Lemma filter_unseen_snoc (seen l : list string) (f : string) :
  List.filter (fun y => negb (List.existsb (String.eqb y) (seen ++ [f]))) l =
  List.filter (fun y => negb (List.existsb (String.eqb y) seen))
    (List.filter (fun y => negb (String.eqb f y)) l).
Proof.
  induction l as [|y l IH]; simpl; [reflexivity|].
  rewrite existsb_app. simpl. rewrite orb_false_r, (String.eqb_sym f y).
  destruct (String.eqb y f); simpl.
  - rewrite orb_true_r. simpl. exact IH.
  - rewrite orb_false_r.
    destruct (List.existsb (String.eqb y) seen); simpl;
      [exact IH | rewrite IH; reflexivity].
Qed.

Lemma filter_unseen_seen (seen l : list string) (f : string) :
  List.existsb (String.eqb f) seen = true ->
  List.filter (fun y => negb (List.existsb (String.eqb y) seen))
    (List.filter (fun y => negb (String.eqb f y)) l) =
  List.filter (fun y => negb (List.existsb (String.eqb y) seen)) l.
Proof.
  intros Hf. induction l as [|y l IH]; simpl; [reflexivity|].
  destruct (String.eqb f y) eqn:E; simpl.
  - apply String.eqb_eq in E. subst y. rewrite Hf. simpl. exact IH.
  - rewrite IH. reflexivity.
Qed.

Lemma add_all_uniq (fs seen : list string) :
  List.fold_left add_unseen fs seen =
  seen ++ List.filter (fun y => negb (List.existsb (String.eqb y) seen))
            (uniq fs).
Proof.
  revert seen. induction fs as [|f fs IH]; intros seen; simpl.
  - symmetry. apply app_nil_r.
  - unfold add_unseen at 2.
    destruct (List.existsb (String.eqb f) seen) eqn:E; simpl.
    + rewrite IH, filter_unseen_seen by exact E. reflexivity.
    + rewrite IH, filter_unseen_snoc, <- app_assoc. reflexivity.
Qed.

(** The dictionary built from the requested fields: one entry per field
    in the order of first occurrence. *)
Lemma dict_of_fields (fs : list string) :
  Py.dict (Py.zip (List.map Py.VStr fs) (List.map g fs)) =
  List.map (field_pair g) (uniq fs).
Proof.
  unfold Py.dict. rewrite zip_fields.
  change (@nil (Py.value * Py.value)) with (List.map (field_pair g) []).
  rewrite dict_fields_from, add_all_uniq. simpl.
  f_equal. induction (uniq fs) as [|y l IH]; simpl; [reflexivity|].
  rewrite IH. reflexivity.
Qed.

Lemma dict_get_field (l : list string) (f : string) :
  List.In f l -> Py.dict_get (List.map (field_pair g) l) (Py.VStr f) = Some (g f).
Proof.
  induction l as [|a l IH]; simpl; [contradiction|].
  intros Hin. destruct (String.eqb a f) eqn:E.
  - apply String.eqb_eq in E. subst a. reflexivity.
  - destruct Hin as [->|Hin]; [|exact (IH Hin)].
    rewrite String.eqb_refl in E. discriminate E.
Qed.

End DictOfFields.

Lemma uniq_In (l : list string) (f : string) : List.In f l -> List.In f (uniq l).
Proof.
  induction l as [|a l IH]; simpl; [contradiction|].
  intros [->|Hin]; [left; reflexivity|].
  destruct (String.eqb a f) eqn:E.
  - apply String.eqb_eq in E. left. exact E.
  - right. apply filter_In. split; [exact (IH Hin)|]. rewrite E. reflexivity.
Qed.

Lemma uniq_NoDup (l : list string) : List.NoDup l -> uniq l = l.
Proof.
  induction 1 as [|a l Hnotin Hnd IH]; simpl; [reflexivity|].
  rewrite IH. f_equal.
  clear IH Hnd. induction l as [|y l IH]; simpl; [reflexivity|].
  destruct (String.eqb a y) eqn:E; simpl.
  - apply String.eqb_eq in E. subst y. exfalso. apply Hnotin. left. reflexivity.
  - rewrite IH; [reflexivity|]. intros Hin. apply Hnotin. right. exact Hin.
Qed.

(** What [hmget] does with a non-empty sequence of fields, a list or a
    tuple, on a key that holds no string: one [HMGET] on the composed key,
    the replies decoded and zipped with the requested names into a
    dictionary. *)
Lemma hmget_run `{C : Codec} (self : Redis.t) (key : string)
    (fields : Py.sequence) (pre ver : option string) (s : server.t) :
  Py.elements fields <> [] ->
  let k := Redis._cleankey self (spec_starter key None pre ver) in
  hash_or_absent s k ->
  Redis.hmget (V:=spec_models) self key (Some fields) pre ver s =
  (Ok (Py.dict (Py.zip (List.map Py.VStr (Py.elements fields))
                  (List.map (fun f => byte_conv (field_reply s k f))
                     (Py.elements fields)))),
   {| server.db := server.db s;
      server.log := server.log s ++ [server.HMGET k (Py.elements fields)] |}).
Proof.
  intros Hne k Hty.
  assert (Hrun :
            Redis.hmget (V:=spec_models) self key (Some fields) pre ver s =
            (let* val_list := reds.hmget k (Some fields) in
             ret (Py.dict
                    (Py.zip (List.map Py.VStr (Py.elements fields))
                       (List.map (fun x => byte_conv x) val_list)))) s).
  { unfold Redis.hmget. destruct fields as [[|f fs]|fs]; try reflexivity.
    exfalso. apply Hne. reflexivity. }
  rewrite Hrun. clear Hrun.
  destruct (Py.elements fields) as [|f fs] eqn:Efs; [congruence|].
  unfold bind, ret, reds.hmget. rewrite execute_command_state, Efs.
  unfold server.do_hmget.
  assert (Hrep : forall x, field_reply s k x =
                           match server.db s !! k with
                           | Some e => match server.value e with
                                       | server.RHash h => server.hash_get h x
                                       | server.RString _ => None
                                       end
                           | None => None
                           end).
  { intros x. unfold field_reply.
    destruct (server.db s !! k) as [[[v|h] ex]|]; reflexivity. }
  destruct (server.db s !! k) as [[[v|h] ex]|] eqn:E.
  - destruct (Hty _ E) as [h Hh]. discriminate Hh.
  - cbn [fst snd]. rewrite List.map_map. do 4 f_equal.
    apply List.map_ext. intros x. rewrite Hrep. reflexivity.
  - cbn [fst snd]. rewrite List.map_map. do 4 f_equal.
    apply List.map_ext. intros x. rewrite Hrep. reflexivity.
Qed.

(** C5: [hmget] with an explicit non-empty sequence of fields, a list or a
    tuple, returns a mapping that pairs each requested field name with its
    decoded value, in the order of the request (a name requested twice
    keeps the place of its first occurrence).  A requested field that is
    not in the hash is in the result, mapped to the decoding of the nil
    reply. *)
Theorem hmget_fields_in_request_order `{C : Codec} (self : Redis.t)
    (key : string) (x : Py.sequence) (pre ver : option string)
    (s : server.t) :
  let fields := Py.elements x in
  fields <> [] ->
  let k := Redis._cleankey self (spec_starter key None pre ver) in
  hash_or_absent s k ->
  exists d s',
    Redis.hmget (V:=spec_models) self key (Some x) pre ver s = (Ok d, s')
    /\ received s s' [server.HMGET k fields]
    /\ server.db s' = server.db s
    /\ d = List.map (fun f => (Py.VStr f, byte_conv (field_reply s k f)))
             (uniq fields)
    /\ (List.NoDup fields -> List.map fst d = List.map Py.VStr fields)
    /\ (forall f, List.In f fields ->
                  Py.dict_get d (Py.VStr f)
                  = Some (byte_conv (field_reply s k f)))
    /\ (forall f, List.In f fields -> field_reply s k f = None ->
                  List.In (Py.VStr f, byte_conv None) d).
Proof.
  intros fields Hne k Hty.
  pose (g := fun f => byte_conv (field_reply s k f)).
  eexists _, _. split; [apply hmget_run; assumption|].
  fold fields. fold k. fold g. rewrite (dict_of_fields g).
  split; [reflexivity|]. split; [reflexivity|]. split; [reflexivity|].
  split; [|split].
  - intros Hnd. rewrite (uniq_NoDup _ Hnd), List.map_map. reflexivity.
  - intros f Hin. apply (dict_get_field g). apply uniq_In. exact Hin.
  - intros f Hin Hnone.
    apply List.in_map_iff. exists f. split; [|apply uniq_In; exact Hin].
    unfold field_pair, g. rewrite Hnone. reflexivity.
Qed.

Lemma hmget_fields_in_request_order_witness :
  exists d s',
    @Redis.hmget passthrough spec_models plain "h"
      (Some (Py.PyList ["x"; "f"; "x"])) None None empty_string_server
    = (Ok d, s')
    /\ d = [(Py.VStr "x", Py.VNone); (Py.VStr "f", Py.VStr "")].
Proof.
  assert (Hty : hash_or_absent empty_string_server "h").
  { intros e He. vm_compute in He. injection He as <-.
    eexists. reflexivity. }
  destruct (@hmget_fields_in_request_order passthrough plain "h"
              (Py.PyList ["x"; "f"; "x"]) None None empty_string_server
              ltac:(discriminate) Hty)
    as (d & s' & Hcall & _ & _ & Hd & _).
  exists d, s'. split; [exact Hcall|]. rewrite Hd. vm_compute. reflexivity.
Defined.

(** ** [delete] *)

Section DeleteCount.
Context `{C : Codec}.

(** [DEL] removes exactly the named keys and counts those removed. *)
Lemma del_all_spec (names : list string) (m : gmap string server.entry) :
  snd (server.del_all names m)
  = Z.of_nat (size m) - Z.of_nat (size (fst (server.del_all names m)))
  /\ forall k, fst (server.del_all names m) !! k
               = if decide (k ∈ names) then None else m !! k.
Proof.
  revert m. induction names as [|n names IH]; intros m.
  - simpl. split; [lia|]. intros k.
    destruct (decide (k ∈ [])) as [H|_]; [|reflexivity].
    apply not_elem_of_nil in H. contradiction.
  - cbn [server.del_all].
    destruct (m !! n) as [e|] eqn:E.
    + destruct (IH (delete n m)) as [Hn Hk].
      destruct (server.del_all names (delete n m)) as [m2 c].
      cbn [fst snd] in *. split.
      * rewrite Hn. rewrite map_size_delete, E.
        assert (size m <> 0%nat).
        { intros H0. apply map_size_empty_inv in H0. subst m.
          rewrite lookup_empty in E. discriminate. }
        lia.
      * intros k. rewrite Hk.
        destruct (decide (k = n)) as [->|Hne].
        -- rewrite lookup_delete_eq.
           destruct (decide (n ∈ names)) as [H|H];
             destruct (decide (n ∈ n :: names)) as [H'|H'];
             try reflexivity;
             exfalso; apply H'; apply elem_of_cons; left; reflexivity.
        -- rewrite lookup_delete_ne by congruence.
           destruct (decide (k ∈ names)) as [H|H];
             destruct (decide (k ∈ n :: names)) as [H'|H'];
             try reflexivity; exfalso.
           ++ apply H'. apply elem_of_cons. right. exact H.
           ++ apply elem_of_cons in H'. destruct H'; contradiction.
    + destruct (IH m) as [Hn Hk].
      destruct (server.del_all names m) as [m2 c].
      cbn [fst snd] in *. split; [lia|].
      intros k. rewrite Hk.
      destruct (decide (k = n)) as [->|Hne].
      * rewrite E.
        destruct (decide (n ∈ names)) as [H|H];
          destruct (decide (n ∈ n :: names)) as [H'|H']; reflexivity.
      * destruct (decide (k ∈ names)) as [H|H];
          destruct (decide (k ∈ n :: names)) as [H'|H'];
          try reflexivity; exfalso.
        -- apply H'. apply elem_of_cons. right. exact H.
        -- apply elem_of_cons in H'. destruct H'; contradiction.
Qed.

End DeleteCount.

(** What [delete] does once its model is built: the base keys are composed
    one by one and sent in a single [DEL]. *)
Lemma delete_run `{C : Codec} (self : Redis.t) (key : str_or_seq)
    (pre ver : option string) (s : server.t) :
  let cleaned :=
    List.map (fun base => Redis._cleankey self (spec_starter base None pre ver))
      (to_seq key) in
  Redis.delete (V:=spec_models) self key pre ver s =
  (fst (server.do_del cleaned (server.db s)),
   {| server.db := snd (server.do_del cleaned (server.db s));
      server.log := server.log s ++ [server.DEL cleaned] |}).
Proof.
  intros cleaned. unfold Redis.delete.
  cbn [models.Delete spec_models validate].
  unfold bind at 1, ret at 1.
  cbn [models.Delete_key models.Delete_pre models.Delete_ver].
  unfold bind, ret, reds.delete. rewrite execute_command_state.
  change (List.map _ (to_seq key)) with cleaned.
  destruct (fst (server.do_del cleaned (server.db s))); reflexivity.
Qed.

(** C6: [delete] normalizes its key argument to a sequence, composes each
    base key with the per-call prefix and version (the instance's where
    none is given) exactly as [_cleankey] does, and sends the composed keys
    in one [DEL].  For a non-empty sequence the call returns the number of
    keys removed, and the keys named are gone while the others are
    untouched.  In particular [delete([a, b])] where [a] is there and [b]
    is not returns 1. *)
Theorem delete_composes_and_counts `{C : Codec} (self : Redis.t)
    (s : server.t) :
  (forall key pre ver,
     let cleaned :=
       List.map
         (fun base => Redis._cleankey self (spec_starter base None pre ver))
         (to_seq key) in
     exists r s',
       Redis.delete (V:=spec_models) self key pre ver s = (r, s')
       /\ received s s' [server.DEL cleaned]
       /\ (to_seq key <> [] ->
           r = Ok (Z.of_nat (size (server.db s))
                   - Z.of_nat (size (server.db s')))
           /\ forall k, server.db s' !! k
                        = if decide (k ∈ cleaned) then None
                          else server.db s !! k))
  /\ (forall a b pre ver e,
        server.db s !! Redis._cleankey self (spec_starter a None pre ver)
        = Some e ->
        server.db s !! Redis._cleankey self (spec_starter b None pre ver)
        = None ->
        fst (Redis.delete (V:=spec_models) self (Seq [a; b]) pre ver s)
        = Ok 1).
Proof.
  split.
  - intros key pre ver cleaned. eexists _, _.
    split; [apply delete_run|]. fold cleaned.
    split; [reflexivity|]. cbn [server.db].
    intros Hne. unfold server.do_del.
    destruct cleaned as [|c cs] eqn:Ec.
    { exfalso. apply Hne. subst cleaned.
      destruct (to_seq key); [reflexivity | discriminate Ec]. }
    rewrite <- Ec.
    destruct (del_all_spec cleaned (server.db s)) as [Hn Hk].
    destruct (server.del_all cleaned (server.db s)) as [m' n].
    cbn [fst snd] in *. split; [congruence | exact Hk].
  - intros a b pre ver e Ha Hb. rewrite delete_run. cbn [fst to_seq List.map].
    set (ka := Redis._cleankey self (spec_starter a None pre ver)) in *.
    set (kb := Redis._cleankey self (spec_starter b None pre ver)) in *.
    assert (Hne : ka <> kb) by congruence.
    unfold server.do_del. cbn [server.del_all]. rewrite Ha.
    rewrite lookup_delete_ne by exact Hne. rewrite Hb. reflexivity.
Qed.

Lemma delete_composes_and_counts_witness :
  exists s',
    @Redis.delete passthrough spec_models plain (Seq ["a"; "b"]) None None
      only_a_server = (Ok 1, s')
    /\ received only_a_server s' [@server.DEL passthrough ["a"; "b"]]
    /\ server.db s' = ∅.
Proof.
  destruct (proj1 (@delete_composes_and_counts passthrough plain only_a_server)
              (Seq ["a"; "b"]) None None)
    as (r & s' & Hcall & Hrec & Hcount).
  pose proof (proj2 (@delete_composes_and_counts passthrough plain only_a_server)
                "a" "b" None None (string_entry (Py.VInt 1) (Some 60))
                ltac:(vm_compute; reflexivity) ltac:(vm_compute; reflexivity))
    as Hone.
  rewrite Hcall in Hone. cbn [fst] in Hone. subst r.
  exists s'. split; [exact Hcall|]. split; [exact Hrec|].
  destruct (Hcount ltac:(discriminate)) as [_ Hk].
  apply map_eq. intros k. rewrite Hk, lookup_empty.
  destruct (decide _) as [H|H]; [reflexivity|].
  cbn [List.map to_seq] in H.
  unfold only_a_server. cbn [server.db].
  rewrite lookup_insert_ne; [apply lookup_empty|].
  intros <-. apply H. apply elem_of_cons. left. reflexivity.
Defined.

(** * Further properties of the client *)

(** ** The write paths in full *)

Section WriteRuns.
Context `{C : Codec}.
Variable self : Redis.t.

(** [set], whatever its arguments: a value that cannot be encoded raises
    before anything is sent; otherwise [SET] and then [EXPIRE] are sent and
    the call returns [True] or [None] as the [SET] was applied or not. *)
Lemma set_full (key : string) (val : Py.value) (xx keepttl : bool)
    (ttl : option Z) (pre ver : option string) (s : server.t) :
  let k := Redis._cleankey self (spec_starter key ttl pre ver) in
  let t := default Redis.ttl ttl in
  Redis.set (V:=spec_models) self key val xx keepttl ttl pre ver s =
  match encode val with
  | None => (Raise DataError, s)
  | Some v =>
      let m1 := snd (server.do_set k v xx keepttl (server.db s)) in
      (Ok (match fst (server.do_set k v xx keepttl (server.db s)) with
           | Ok true => Py.VBool true
           | _ => Py.VNone
           end),
       {| server.db := snd (server.do_expire k t m1);
          server.log := server.log s
                        ++ [server.SET k v xx keepttl; server.EXPIRE k t] |})
  end.
Proof.
  intros k t. unfold Redis.set. cbn [models.Set_ spec_models validate].
  unfold bind at 1, ret at 1.
  cbn [models.val models.xx models.keepttl models.Set_base models.ttl
       spec_starter].
  fold k. change (match ttl with Some t0 => t0 | None => Redis.ttl end) with t.
  unfold reds.set. destruct (encode val) as [v|]; [|reflexivity].
  unfold bind, ret, reds.expire. rewrite execute_command_state.
  destruct (do_set_ok k v xx keepttl (server.db s)) as [b Hb]. rewrite Hb.
  rewrite execute_command_state. cbn [server.db server.log].
  destruct (do_expire_ok k t (snd (server.do_set k v xx keepttl (server.db s))))
    as [b' Hb']. rewrite Hb'. rewrite <- app_assoc.
  destruct b; reflexivity.
Qed.

(** The field/value pairs [hset] asks the connection to send. *)
Lemma hset_full (key field : string) (val : Py.value)
    (mapping : option (list (string * Py.value))) (ttl : option Z)
    (pre ver : option string) (s : server.t) :
  let k := Redis._cleankey self (spec_starter key ttl pre ver) in
  let t := default Redis.ttl ttl in
  Redis.hset (V:=spec_models) self key field val mapping ttl pre ver s =
  match reds.encode_items ((field, val) :: default [] mapping) with
  | None => (Raise DataError, s)
  | Some items =>
      match server.do_hset k items (server.db s) with
      | (Ok n, m1) =>
          (Ok n,
           {| server.db := snd (server.do_expire k t m1);
              server.log := server.log s
                            ++ [server.HSET k items; server.EXPIRE k t] |})
      | (Raise e, m1) =>
          (Raise e,
           {| server.db := m1;
              server.log := server.log s ++ [server.HSET k items] |})
      end
  end.
Proof.
  intros k t. unfold Redis.hset. cbn [models.Hset spec_models validate].
  unfold bind at 1, ret at 1.
  cbn [models.field models.Hset_val models.mapping models.Hset_base
       models.ttl spec_starter].
  fold k. change (match ttl with Some t0 => t0 | None => Redis.ttl end) with t.
  unfold reds.hset.
  change (match mapping with Some d => d | None => [] end)
    with (default [] mapping).
  change ([(field, val)] ++ default [] mapping)
    with ((field, val) :: default [] mapping).
  destruct (reds.encode_items ((field, val) :: default [] mapping))
    as [items|]; [|reflexivity].
  unfold bind, ret, reds.expire. rewrite execute_command_state.
  destruct (server.do_hset k items (server.db s)) as [[n|e] m1]; cbn [fst snd].
  - rewrite execute_command_state. cbn [server.db server.log].
    destruct (do_expire_ok k t m1) as [b' Hb']. rewrite Hb', <- app_assoc.
    reflexivity.
  - reflexivity.
Qed.

Lemma hmset_full (key : string) (mapping : list (string * Py.value))
    (ttl : option Z) (pre ver : option string) (s : server.t) :
  mapping <> [] ->
  let k := Redis._cleankey self (spec_starter key ttl pre ver) in
  let t := default Redis.ttl ttl in
  Redis.hmset (V:=spec_models) self key mapping ttl pre ver s =
  match reds.encode_items mapping with
  | None => (Raise DataError, s)
  | Some items =>
      match server.do_hset k items (server.db s) with
      | (Ok n, m1) =>
          (Ok n,
           {| server.db := snd (server.do_expire k t m1);
              server.log := server.log s
                            ++ [server.HSET k items; server.EXPIRE k t] |})
      | (Raise e, m1) =>
          (Raise e,
           {| server.db := m1;
              server.log := server.log s ++ [server.HSET k items] |})
      end
  end.
Proof.
  intros Hne k t. unfold Redis.hmset.
  destruct mapping as [|p mapping]; [congruence|].
  cbn [models.Hmset spec_models validate].
  unfold bind at 1, ret at 1.
  cbn [models.Hmset_mapping models.Hmset_base models.ttl spec_starter].
  fold k. change (match ttl with Some t0 => t0 | None => Redis.ttl end) with t.
  unfold reds.hset. cbn [app].
  destruct (reds.encode_items (p :: mapping)) as [items|]; [|reflexivity].
  unfold bind, ret, reds.expire. rewrite execute_command_state.
  destruct (server.do_hset k items (server.db s)) as [[n|e] m1]; cbn [fst snd].
  - rewrite execute_command_state. cbn [server.db server.log].
    destruct (do_expire_ok k t m1) as [b' Hb']. rewrite Hb', <- app_assoc.
    reflexivity.
  - reflexivity.
Qed.

End WriteRuns.

(** ** What a write does to the keyspace *)

Section WriteEffects.
Context `{C : Codec}.

(** [SET] followed by [EXPIRE] gives the same keyspace with and without
    [KEEPTTL]: the time to live kept by the first is replaced by the
    second. *)
Lemma set_expire_keepttl (k : string) (v : raw) (xx : bool) (t : Z)
    (m : gmap string server.entry) :
  fst (server.do_set k v xx true m) = fst (server.do_set k v xx false m)
  /\ snd (server.do_expire k t (snd (server.do_set k v xx true m)))
     = snd (server.do_expire k t (snd (server.do_set k v xx false m))).
Proof.
  unfold server.do_set.
  destruct (m !! k) as [e|] eqn:E; [|destruct xx; split; reflexivity].
  cbn [fst snd]. split; [reflexivity|].
  unfold server.do_expire. rewrite !lookup_insert_eq. cbn [server.value].
  destruct (t <=? 0).
  - cbn [snd]. rewrite !delete_insert_eq. reflexivity.
  - cbn [snd]. rewrite !insert_insert_eq. reflexivity.
Qed.

Lemma do_set_other (k k' : string) (v : raw) (xx keepttl : bool)
    (m : gmap string server.entry) :
  k <> k' -> snd (server.do_set k v xx keepttl m) !! k' = m !! k'.
Proof.
  intros Hne. unfold server.do_set.
  destruct (m !! k); [|destruct xx]; cbn [snd];
    try reflexivity; apply lookup_insert_ne; exact Hne.
Qed.

Lemma do_expire_other (k k' : string) (t : Z) (m : gmap string server.entry) :
  k <> k' -> snd (server.do_expire k t m) !! k' = m !! k'.
Proof.
  intros Hne. unfold server.do_expire.
  destruct (m !! k); [destruct (t <=? 0)|]; cbn [snd]; try reflexivity.
  - apply lookup_delete_ne; exact Hne.
  - apply lookup_insert_ne; exact Hne.
Qed.

Lemma do_hset_other (k k' : string) (items : list (string * raw))
    (m : gmap string server.entry) :
  k <> k' -> snd (server.do_hset k items m) !! k' = m !! k'.
Proof.
  intros Hne. unfold server.do_hset.
  destruct items as [|i items]; [reflexivity|].
  destruct (m !! k) as [[[v|h0] ex]|]; [reflexivity | |].
  - destruct (server.hash_set_all h0 (i :: items)). cbn [snd].
    apply lookup_insert_ne; exact Hne.
  - destruct (server.hash_set_all [] (i :: items)). cbn [snd].
    apply lookup_insert_ne; exact Hne.
Qed.

(** An [HSET] that is refused changes nothing. *)
Lemma do_hset_raise (k : string) (items : list (string * raw))
    (m m1 : gmap string server.entry) (e : error) :
  server.do_hset k items m = (Raise e, m1) -> m1 = m /\ e = ResponseError.
Proof.
  unfold server.do_hset.
  destruct items as [|i items]; [intros [= <- <-]; auto|].
  destruct (m !! k) as [[[v|h0] ex]|].
  - intros [= <- <-]; auto.
  - destruct (server.hash_set_all h0 (i :: items)). discriminate.
  - destruct (server.hash_set_all [] (i :: items)). discriminate.
Qed.

End WriteEffects.

(** X1: [keepttl] has no effect on what [set] leaves behind.  With and
    without it the call returns the same and the keyspace afterwards is the
    same, because the expiration that follows the [SET] replaces the time to
    live the flag kept. *)
Theorem set_keepttl_without_effect `{C : Codec} (self : Redis.t)
    (key : string) (val : Py.value) (xx : bool) (ttl : option Z)
    (pre ver : option string) (s : server.t) :
  fst (Redis.set (V:=spec_models) self key val xx true ttl pre ver s)
  = fst (Redis.set (V:=spec_models) self key val xx false ttl pre ver s)
  /\ server.db
       (snd (Redis.set (V:=spec_models) self key val xx true ttl pre ver s))
     = server.db
         (snd (Redis.set (V:=spec_models) self key val xx false ttl pre ver s)).
Proof.
  rewrite !set_full. cbv zeta.
  destruct (encode val) as [v|]; [|split; reflexivity].
  cbn [fst snd server.db].
  destruct (set_expire_keepttl
              (Redis._cleankey self (spec_starter key ttl pre ver)) v xx
              (default Redis.ttl ttl) (server.db s)) as [H1 H2].
  rewrite H2. split; [|reflexivity]. rewrite H1. reflexivity.
Qed.

(** X2: [set] with [xx] on a key that is not there writes nothing.  The
    call returns [None], the keyspace is the one before the call, and the
    [SET] and the [EXPIRE] were both sent. *)
Theorem set_xx_on_missing_key `{C : Codec} (self : Redis.t) (key : string)
    (val : Py.value) (v : raw) (keepttl : bool) (ttl : option Z)
    (pre ver : option string) (s : server.t) :
  let k := Redis._cleankey self (spec_starter key ttl pre ver) in
  encode val = Some v ->
  server.db s !! k = None ->
  exists s',
    Redis.set (V:=spec_models) self key val true keepttl ttl pre ver s
    = (Ok Py.VNone, s')
    /\ server.db s' = server.db s
    /\ received s s' [server.SET k v true keepttl;
                      server.EXPIRE k (default Redis.ttl ttl)].
Proof.
  intros k Henc Hk. rewrite set_full. cbv zeta. fold k. rewrite Henc.
  unfold server.do_set. rewrite Hk. cbn [fst snd].
  unfold server.do_expire. rewrite Hk. cbn [snd].
  eexists. split; [reflexivity|]. split; reflexivity.
Qed.

Lemma set_xx_on_missing_key_witness :
  exists s',
    @Redis.set passthrough spec_models plain "new" (Py.VInt 7) true false
      None None None only_a_server = (Ok Py.VNone, s')
    /\ server.db s' = server.db only_a_server
    /\ received only_a_server s'
         [@server.SET passthrough "new" (Py.VInt 7) true false;
          @server.EXPIRE passthrough "new" 1209600].
Proof.
  exact (@set_xx_on_missing_key passthrough plain "new" (Py.VInt 7)
           (Py.VInt 7) false None None None only_a_server eq_refl
           ltac:(vm_compute; reflexivity)).
Defined.

(** X3: a [ttl] of zero is passed on as it is, not replaced by the
    default, and the key does not outlive the call.  Whenever the model of
    the call validates carrying that [ttl], without [xx] and with a value
    the connection can encode, [set] returns [True], the [EXPIRE] carries
    0, and the key is not in the store afterwards. *)
Theorem set_zero_ttl_removes_key `{C : Codec} `{V : models.Validators}
    (self : Redis.t) (key : string) (val : Py.value) (xx keepttl : bool)
    (pre ver : option string) (data : models.SetModel) (v : raw)
    (s : server.t) :
  models.Set_ key val xx keepttl (Some 0) pre ver = Valid data ->
  models.ttl data = Some 0 ->
  models.xx data = false ->
  encode (models.val data) = Some v ->
  let k := Redis._cleankey self data in
  exists s',
    Redis.set self key val xx keepttl (Some 0) pre ver s
    = (Ok (Py.VBool true), s')
    /\ received s s' [server.SET k v false (models.keepttl data);
                      server.EXPIRE k 0]
    /\ server.db s' !! k = None.
Proof.
  intros Hvalid Httl Hxx Henc k. unfold Redis.set. rewrite Hvalid.
  cbn [validate]. unfold bind at 1, ret at 1. fold k. rewrite Httl, Hxx.
  unfold reds.set. rewrite Henc. unfold bind, ret, reds.expire.
  rewrite execute_command_state.
  assert (Hset : exists ex,
             server.do_set k v false (models.keepttl data) (server.db s) =
             (Ok true, <[k := {| server.value := server.RString v;
                                 server.expire := ex |}]> (server.db s))).
  { unfold server.do_set. destruct (server.db s !! k); eexists; reflexivity. }
  destruct Hset as [ex Hset]. rewrite Hset. cbn [fst snd].
  rewrite execute_command_state. cbn [server.db server.log].
  unfold server.do_expire. rewrite lookup_insert_eq.
  cbn [Z.leb Z.compare fst snd].
  eexists. split; [reflexivity|]. split.
  - unfold received. cbn [server.log]. rewrite <- app_assoc. reflexivity.
  - cbn [server.db]. apply lookup_delete_eq.
Qed.

Lemma set_zero_ttl_removes_key_witness :
  exists s',
    @Redis.set passthrough spec_models plain "a" (Py.VInt 7) false false
      (Some 0) None None only_a_server = (Ok (Py.VBool true), s')
    /\ received only_a_server s'
         [@server.SET passthrough "a" (Py.VInt 7) false false;
          @server.EXPIRE passthrough "a" 0]
    /\ server.db s' !! "a" = None.
Proof.
  exact (@set_zero_ttl_removes_key passthrough spec_models plain "a"
           (Py.VInt 7) false false None None _ (Py.VInt 7) only_a_server
           eq_refl eq_refl eq_refl eq_refl).
Defined.

(** X4: a write touches the composed key only.  After [set], [hset] or
    [hmset], whether the call returned or raised, every other key of the
    store holds what it held, time to live included. *)
Theorem writes_touch_only_their_key `{C : Codec} (self : Redis.t)
    (s : server.t) (other : string) :
  (forall key val xx keepttl ttl pre ver,
     Redis._cleankey self (spec_starter key ttl pre ver) <> other ->
     server.db
       (snd (Redis.set (V:=spec_models) self key val xx keepttl ttl pre ver s))
     !! other = server.db s !! other)
  /\ (forall key field val mapping ttl pre ver,
        Redis._cleankey self (spec_starter key ttl pre ver) <> other ->
        server.db
          (snd (Redis.hset (V:=spec_models) self key field val mapping ttl
                  pre ver s))
        !! other = server.db s !! other)
  /\ (forall key mapping ttl pre ver,
        Redis._cleankey self (spec_starter key ttl pre ver) <> other ->
        server.db
          (snd (Redis.hmset (V:=spec_models) self key mapping ttl pre ver s))
        !! other = server.db s !! other).
Proof.
  split; [|split].
  - intros key val xx keepttl ttl pre ver Hne. rewrite set_full. cbv zeta.
    destruct (encode val) as [v|]; [|reflexivity]. cbn [snd server.db].
    rewrite do_expire_other by exact Hne. apply do_set_other; exact Hne.
  - intros key field val mapping ttl pre ver Hne. rewrite hset_full. cbv zeta.
    destruct (reds.encode_items _) as [items|]; [|reflexivity].
    pose proof (do_hset_other _ other items (server.db s) Hne) as Hh.
    destruct (server.do_hset _ items (server.db s)) as [[n|e] m1];
      cbn [snd server.db] in *; [|exact Hh].
    rewrite do_expire_other by exact Hne. exact Hh.
  - intros key mapping ttl pre ver Hne.
    destruct mapping as [|p mapping]; [reflexivity|].
    rewrite hmset_full by discriminate. cbv zeta.
    destruct (reds.encode_items _) as [items|]; [|reflexivity].
    pose proof (do_hset_other _ other items (server.db s) Hne) as Hh.
    destruct (server.do_hset _ items (server.db s)) as [[n|e] m1];
      cbn [snd server.db] in *; [|exact Hh].
    rewrite do_expire_other by exact Hne. exact Hh.
Qed.

Lemma writes_touch_only_their_key_witness :
  server.db
    (snd (@Redis.set passthrough spec_models plain "b" (Py.VInt 2) false false
            None None None only_a_server)) !! "a"
  = Some (string_entry (Py.VInt 1) (Some 60))
  /\ server.db
       (snd (@Redis.hset passthrough spec_models plain "b" "f" (Py.VInt 2)
               None None None None only_a_server)) !! "a"
     = Some (string_entry (Py.VInt 1) (Some 60))
  /\ server.db
       (snd (@Redis.hmset passthrough spec_models plain "b"
               [("f", Py.VInt 2)] None None None only_a_server)) !! "a"
     = Some (string_entry (Py.VInt 1) (Some 60)).
Proof.
  pose proof (@writes_touch_only_their_key passthrough plain only_a_server "a")
    as (H1 & H2 & H3).
  split; [|split].
  - rewrite H1 by discriminate. vm_compute. reflexivity.
  - rewrite H2 by discriminate. vm_compute. reflexivity.
  - rewrite H3 by discriminate. vm_compute. reflexivity.
Defined.

(** ** Reads *)

Lemma bind_ret_map `{C : Codec} {A B : Type} (m : M A) (f : A -> B)
    (s : server.t) :
  bind m (fun x => ret (f x)) s =
  (match fst (m s) with Ok a => Ok (f a) | Raise e => Raise e end, snd (m s)).
Proof. unfold bind, ret. destruct (m s) as [[a|e] s']; reflexivity. Qed.

Section ReadStates.
Context `{C : Codec} `{V : models.Validators}.
Variable self : Redis.t.

(** The state a read leaves: untouched when no command is sent, else the
    one after the single command. *)
Lemma get_state (key : string) (default : Py.value) (pre ver : option string)
    (s : server.t) :
  snd (Redis.get self key default pre ver s) =
  match models.Get key default pre ver with
  | Invalid => s
  | Valid data =>
      let k := Redis._cleankey self data in
      {| server.db := snd (server.do_get k (server.db s));
         server.log := server.log s ++ [server.GET k] |}
  end.
Proof.
  unfold Redis.get.
  destruct (models.Get key default pre ver) as [data|]; cbn [validate];
    [|reflexivity].
  unfold bind at 1, ret at 1. rewrite bind_ret_map. cbn [snd].
  unfold reds.get. rewrite execute_command_state. reflexivity.
Qed.

Lemma hget_state (key field : string) (default : Py.value)
    (pre ver : option string) (s : server.t) :
  snd (Redis.hget self key field default pre ver s) =
  match models.Hget key default pre ver with
  | Invalid => s
  | Valid data =>
      let k := Redis._cleankey self data in
      {| server.db := snd (server.do_hget k field (server.db s));
         server.log := server.log s ++ [server.HGET k field] |}
  end.
Proof.
  unfold Redis.hget.
  destruct (models.Hget key default pre ver) as [data|]; cbn [validate];
    [|reflexivity].
  unfold bind at 1, ret at 1. rewrite bind_ret_map. cbn [snd].
  unfold reds.hget. rewrite execute_command_state. reflexivity.
Qed.

Lemma hmget_state (key : string) (fields : option Py.sequence)
    (pre ver : option string) (s : server.t) :
  snd (Redis.hmget self key fields pre ver s) =
  match fields with
  | Some (Py.PyList []) => s
  | _ =>
      match models.Hmget key fields pre ver with
      | Invalid => s
      | Valid data =>
          let k := Redis._cleankey self data in
          match fields, models.fields_ data with
          | Some _, None => s
          | Some _, Some ks =>
              {| server.db := snd (server.do_hmget k (Py.elements ks)
                                     (server.db s));
                 server.log := server.log s
                               ++ [server.HMGET k (Py.elements ks)] |}
          | None, _ =>
              {| server.db := snd (server.do_hgetall k (server.db s));
                 server.log := server.log s ++ [server.HGETALL k] |}
          end
      end
  end.
Proof.
  assert (Hsome : forall x : Py.sequence,
             snd ((let* data := validate (models.Hmget key (Some x) pre ver) in
                   let* val_list :=
                     reds.hmget (Redis._cleankey self data)
                       (models.fields_ data) in
                   ret (Py.dict
                          (Py.zip (List.map Py.VStr (Py.elements x))
                             (List.map (fun v => byte_conv v) val_list)))) s)
             = match models.Hmget key (Some x) pre ver with
               | Invalid => s
               | Valid data =>
                   let k := Redis._cleankey self data in
                   match models.fields_ data with
                   | None => s
                   | Some ks =>
                       {| server.db := snd (server.do_hmget k (Py.elements ks)
                                              (server.db s));
                          server.log := server.log s
                                        ++ [server.HMGET k (Py.elements ks)] |}
                   end
               end).
  { intros x.
    destruct (models.Hmget key (Some x) pre ver) as [data|];
      cbn [validate]; [|reflexivity].
    unfold bind at 1, ret at 1. rewrite bind_ret_map. cbn [snd].
    unfold reds.hmget.
    destruct (models.fields_ data) as [ks|]; [|reflexivity].
    rewrite execute_command_state. reflexivity. }
  unfold Redis.hmget.
  destruct fields as [[[|f fs]|fs]|];
    [reflexivity | apply Hsome | apply Hsome |].
  - destruct (models.Hmget key None pre ver) as [data|];
      cbn [validate]; [|reflexivity].
    unfold bind at 1, ret at 1. rewrite bind_ret_map. cbn [snd].
    unfold reds.hgetall. rewrite execute_command_state. reflexivity.
Qed.

End ReadStates.

Section ReadFrames.
Context `{C : Codec}.

Lemma do_get_keyspace (k : string) (m : gmap string server.entry) :
  snd (server.do_get k m) = m.
Proof.
  unfold server.do_get. destruct (m !! k) as [[[v|h] ex]|]; reflexivity.
Qed.

Lemma do_hget_keyspace (k f : string) (m : gmap string server.entry) :
  snd (server.do_hget k f m) = m.
Proof.
  unfold server.do_hget. destruct (m !! k) as [[[v|h] ex]|]; reflexivity.
Qed.

Lemma do_hmget_keyspace (k : string) (fs : list string)
    (m : gmap string server.entry) :
  snd (server.do_hmget k fs m) = m.
Proof.
  unfold server.do_hmget. destruct fs; [reflexivity|].
  destruct (m !! k) as [[[v|h] ex]|]; reflexivity.
Qed.

Lemma do_hgetall_keyspace (k : string) (m : gmap string server.entry) :
  snd (server.do_hgetall k m) = m.
Proof.
  unfold server.do_hgetall. destruct (m !! k) as [[[v|h] ex]|]; reflexivity.
Qed.

(** One reading command was sent and the keyspace is the same. *)
Lemma one_read_sent (s : server.t) (c : server.command) :
  is_read c = true ->
  let s' := {| server.db := server.db s; server.log := server.log s ++ [c] |} in
  server.db s' = server.db s
  /\ exists sent, received s s' sent
                  /\ (length sent <= 1)%nat
                  /\ List.forallb is_read sent = true.
Proof.
  intros Hc s'. split; [reflexivity|]. exists [c].
  split; [reflexivity|]. split; [simpl; lia|]. simpl. rewrite Hc. reflexivity.
Qed.

Lemma nothing_sent (s : server.t) :
  server.db s = server.db s
  /\ exists sent, received s s sent
                  /\ (length sent <= 1)%nat
                  /\ List.forallb is_read sent = true.
Proof.
  split; [reflexivity|]. exists [].
  split; [unfold received; symmetry; apply app_nil_r|].
  split; [simpl; lia | reflexivity].
Qed.

End ReadFrames.

(** X5: reading never changes the keyspace.  After [get], [hget] or
    [hmget], for every codec and every validator set, whether the call
    returned or raised, the keyspace is the one before the call, and the
    call sent at most one command, a reading one. *)
Theorem reads_leave_keyspace `{C : Codec} `{V : models.Validators}
    (self : Redis.t) (s : server.t) :
  (forall key default pre ver,
     let s' := snd (Redis.get self key default pre ver s) in
     server.db s' = server.db s
     /\ exists sent, received s s' sent
                     /\ (length sent <= 1)%nat
                     /\ List.forallb is_read sent = true)
  /\ (forall key field default pre ver,
        let s' := snd (Redis.hget self key field default pre ver s) in
        server.db s' = server.db s
        /\ exists sent, received s s' sent
                        /\ (length sent <= 1)%nat
                        /\ List.forallb is_read sent = true)
  /\ (forall key fields pre ver,
        let s' := snd (Redis.hmget self key fields pre ver s) in
        server.db s' = server.db s
        /\ exists sent, received s s' sent
                        /\ (length sent <= 1)%nat
                        /\ List.forallb is_read sent = true).
Proof.
  split; [|split].
  - intros key default pre ver s'. subst s'. rewrite get_state.
    destruct (models.Get key default pre ver) as [data|];
      [|apply nothing_sent].
    cbv zeta. rewrite do_get_keyspace. apply one_read_sent. reflexivity.
  - intros key field default pre ver s'. subst s'. rewrite hget_state.
    destruct (models.Hget key default pre ver) as [data|];
      [|apply nothing_sent].
    cbv zeta. rewrite do_hget_keyspace. apply one_read_sent. reflexivity.
  - intros key fields pre ver s'. subst s'. rewrite hmget_state.
    assert (Hsome : forall x : Py.sequence,
               let s' :=
                 match models.Hmget key (Some x) pre ver with
                 | Invalid => s
                 | Valid data =>
                     let k := Redis._cleankey self data in
                     match models.fields_ data with
                     | None => s
                     | Some ks =>
                         {| server.db :=
                              snd (server.do_hmget k (Py.elements ks)
                                     (server.db s));
                            server.log :=
                              server.log s
                              ++ [server.HMGET k (Py.elements ks)] |}
                     end
                 end in
               server.db s' = server.db s
               /\ exists sent, received s s' sent
                               /\ (length sent <= 1)%nat
                               /\ List.forallb is_read sent = true).
    { intros x.
      destruct (models.Hmget key (Some x) pre ver) as [data|];
        [|apply nothing_sent].
      cbv zeta. destruct (models.fields_ data) as [ks|];
        [|apply nothing_sent].
      rewrite do_hmget_keyspace. apply one_read_sent. reflexivity. }
    destruct fields as [[[|f fs]|fs]|];
      [apply nothing_sent | apply Hsome | apply Hsome |].
    + destruct (models.Hmget key None pre ver) as [data|];
        [|apply nothing_sent].
      cbv zeta. destruct (models.fields_ data);
        rewrite do_hgetall_keyspace; apply one_read_sent; reflexivity.
Qed.

(** What [hmget] does without fields: one [HGETALL] on the composed key, the
    names and the values of the reply decoded and zipped into a
    dictionary. *)
Lemma hmget_all_run `{C : Codec} (self : Redis.t) (key : string)
    (pre ver : option string) (s : server.t) :
  let k := Redis._cleankey self (spec_starter key None pre ver) in
  let s' := {| server.db := server.db s;
               server.log := server.log s ++ [server.HGETALL k] |} in
  Redis.hmget (V:=spec_models) self key None pre ver s =
  match server.db s !! k with
  | Some {| server.value := server.RString _ |} => (Raise ResponseError, s')
  | _ =>
      let h := hash_at s k in
      (Ok (Py.dict
             (Py.zip
                (List.map (fun x => byte_conv (Some (raw_of_str x)))
                   (List.map fst h))
                (List.map (fun x => byte_conv (Some x)) (List.map snd h)))),
       s')
  end.
Proof.
  intros k s'. unfold Redis.hmget. cbn [models.Hmget spec_models validate].
  unfold bind at 1, ret at 1. cbn [models.Hmget_base].
  fold k. unfold bind, ret, reds.hgetall. rewrite execute_command_state.
  unfold server.do_hgetall, hash_at.
  destruct (server.db s !! k) as [[[v|h] ex]|]; reflexivity.
Qed.

Lemma do_hset_on_string `{C : Codec} (k : string)
    (items : list (string * raw)) (m : gmap string server.entry)
    (v : raw) (ex : option Z) :
  m !! k = Some {| server.value := server.RString v; server.expire := ex |} ->
  server.do_hset k items m = (Raise ResponseError, m).
Proof.
  intros Hk. unfold server.do_hset. rewrite Hk. destruct items; reflexivity.
Qed.

(** X7: a hash write on a key that holds a string is refused and no
    expiration follows.  [hset] and [hmset] raise the error reply, the
    [HSET] is the only command sent, and the keyspace, the time to live of
    the key included, is the one before the call. *)
Theorem hash_write_on_string_key `{C : Codec} (self : Redis.t)
    (s : server.t) :
  (forall key field val mapping ttl pre ver items,
     let k := Redis._cleankey self (spec_starter key ttl pre ver) in
     reds.encode_items ((field, val) :: default [] mapping) = Some items ->
     holds_string s k ->
     Redis.hset (V:=spec_models) self key field val mapping ttl pre ver s
     = (Raise ResponseError,
        {| server.db := server.db s;
           server.log := server.log s ++ [server.HSET k items] |}))
  /\ (forall key mapping ttl pre ver items,
        let k := Redis._cleankey self (spec_starter key ttl pre ver) in
        mapping <> [] ->
        reds.encode_items mapping = Some items ->
        holds_string s k ->
        Redis.hmset (V:=spec_models) self key mapping ttl pre ver s
        = (Raise ResponseError,
           {| server.db := server.db s;
              server.log := server.log s ++ [server.HSET k items] |})).
Proof.
  split.
  - intros key field val mapping ttl pre ver items k Henc (v & ex & Hk).
    rewrite hset_full. cbv zeta. fold k. rewrite Henc.
    rewrite (do_hset_on_string k items _ v ex Hk). reflexivity.
  - intros key mapping ttl pre ver items k Hne Henc (v & ex & Hk).
    rewrite hmset_full by exact Hne. cbv zeta. fold k. rewrite Henc.
    rewrite (do_hset_on_string k items _ v ex Hk). reflexivity.
Qed.

Lemma hash_write_on_string_key_witness :
  @Redis.hset passthrough spec_models plain "a" "f" (Py.VInt 2) None None
    None None only_a_server
  = (Raise ResponseError,
     {| server.db := server.db only_a_server;
        server.log := [@server.HSET passthrough "a" [("f", Py.VInt 2)]] |})
  /\ @Redis.hmset passthrough spec_models plain "a" [("f", Py.VInt 2)] None
       None None only_a_server
     = (Raise ResponseError,
        {| server.db := server.db only_a_server;
           server.log := [@server.HSET passthrough "a" [("f", Py.VInt 2)]] |}).
Proof.
  assert (Hs : holds_string only_a_server "a").
  { exists (Py.VInt 1), (Some 60). vm_compute. reflexivity. }
  pose proof (@hash_write_on_string_key passthrough plain only_a_server)
    as (H1 & H2).
  split.
  - exact (H1 "a" "f" (Py.VInt 2) None None None None [("f", Py.VInt 2)]
             eq_refl Hs).
  - exact (H2 "a" [("f", Py.VInt 2)] None None None [("f", Py.VInt 2)]
             ltac:(discriminate) eq_refl Hs).
Defined.

(** X8: a read on a key of the wrong type raises; the default does not
    stand in for the error.  [get] on a key that holds a hash, and [hget]
    and [hmget] on a key that holds a string, raise the error reply. *)
Theorem read_of_wrong_type_raises `{C : Codec} (self : Redis.t)
    (s : server.t) (key : string) (pre ver : option string) :
  let k := Redis._cleankey self (spec_starter key None pre ver) in
  (forall default,
     holds_hash s k ->
     fst (Redis.get (V:=spec_models) self key default pre ver s)
     = Raise ResponseError)
  /\ (forall field default,
        holds_string s k ->
        fst (Redis.hget (V:=spec_models) self key field default pre ver s)
        = Raise ResponseError)
  /\ (forall fields,
        fields <> Some (Py.PyList []) ->
        holds_string s k ->
        fst (Redis.hmget (V:=spec_models) self key fields pre ver s)
        = Raise ResponseError).
Proof.
  intros k. split; [|split].
  - intros default (h & ex & Hk). rewrite get_run. cbv zeta. fold k.
    rewrite Hk. reflexivity.
  - intros field default (v & ex & Hk). rewrite hget_run. cbv zeta. fold k.
    rewrite Hk. reflexivity.
  - intros fields Hne (v & ex & Hk).
    assert (Hsome : forall x : Py.sequence,
               fst ((let* val_list := reds.hmget k (Some x) in
                     ret (Py.dict
                            (Py.zip (List.map Py.VStr (Py.elements x))
                               (List.map (fun r => byte_conv r) val_list)))) s)
               = Raise ResponseError).
    { intros x. unfold bind, ret, reds.hmget.
      rewrite execute_command_state. unfold server.do_hmget. rewrite Hk.
      destruct (Py.elements x); reflexivity. }
    destruct fields as [[[|f fs]|fs]|].
    + congruence.
    + apply (Hsome (Py.PyList (f :: fs))).
    + apply (Hsome (Py.PyTuple fs)).
    + rewrite hmget_all_run. cbv zeta. fold k. rewrite Hk. reflexivity.
Qed.

Lemma read_of_wrong_type_raises_witness :
  fst (@Redis.get passthrough spec_models plain "h" (Py.VStr "D") None None
         empty_string_server) = Raise ResponseError
  /\ fst (@Redis.hget passthrough spec_models plain "k" "f" (Py.VStr "D")
            None None empty_string_server) = Raise ResponseError
  /\ fst (@Redis.hmget passthrough spec_models plain "k" None
            None None empty_string_server) = Raise ResponseError.
Proof.
  assert (Hh : holds_hash empty_string_server "h").
  { exists [("f", Py.VStr "")], None. vm_compute. reflexivity. }
  assert (Hs : holds_string empty_string_server "k").
  { exists (Py.VStr ""), None. vm_compute. reflexivity. }
  split; [|split].
  - exact (proj1 (@read_of_wrong_type_raises passthrough plain
                    empty_string_server "h" None None) (Py.VStr "D") Hh).
  - exact (proj1 (proj2 (@read_of_wrong_type_raises passthrough plain
                           empty_string_server "k" None None))
             "f" (Py.VStr "D") Hs).
  - exact (proj2 (proj2 (@read_of_wrong_type_raises passthrough plain
                           empty_string_server "k" None None))
             None ltac:(discriminate) Hs).
Defined.

(** ** Hashes: what the field operations do *)

Section HashFacts.
Context `{C : Codec}.

Lemma hash_get_set (h : list (string * raw)) (f f' : string) (v : raw) :
  server.hash_get (fst (server.hash_set h f v)) f' =
  if String.eqb f f' then Some v else server.hash_get h f'.
Proof.
  induction h as [|[a w] h IH]; simpl.
  - reflexivity.
  - destruct (String.eqb a f) eqn:Eaf; simpl.
    + apply String.eqb_eq in Eaf. subst a.
      destruct (String.eqb f f'); reflexivity.
    + destruct (server.hash_set h f v) as [h'' new]. simpl in *.
      rewrite IH. destruct (String.eqb a f') eqn:Eaf'; [|reflexivity].
      apply String.eqb_eq in Eaf'. subst a.
      rewrite String.eqb_sym, Eaf. reflexivity.
Qed.

(** A field is counted as new exactly when it was not there, and the hash
    grows by one then. *)
Lemma hash_set_new (h : list (string * raw)) (f : string) (v : raw) :
  snd (server.hash_set h f v)
  = match server.hash_get h f with Some _ => false | None => true end
  /\ length (fst (server.hash_set h f v))
     = (length h + if snd (server.hash_set h f v) then 1 else 0)%nat.
Proof.
  induction h as [|[a w] h IH]; simpl.
  - split; reflexivity.
  - destruct (String.eqb a f); simpl.
    + split; [reflexivity | lia].
    + destruct (server.hash_set h f v) as [h'' new]. simpl in *.
      destruct IH as [IH1 IH2]. split; [exact IH1 | lia].
Qed.

Lemma hash_get_set_all (items h : list (string * raw)) (f : string) :
  server.hash_get (fst (server.hash_set_all h items)) f =
  match assoc_last items f with
  | Some w => Some w
  | None => server.hash_get h f
  end.
Proof.
  revert h. induction items as [|[a v] items IH]; intros h; simpl.
  - reflexivity.
  - pose proof (hash_get_set h a f v) as Hs.
    destruct (server.hash_set h a v) as [h1 new]. simpl in Hs.
    specialize (IH h1).
    destruct (server.hash_set_all h1 items) as [h2 n]. simpl in *.
    rewrite IH, Hs. destruct (assoc_last items f); [reflexivity|].
    destruct (String.eqb a f); reflexivity.
Qed.

(** The count of [HSET] is the number of fields the hash gained. *)
Lemma hash_set_all_count (items h : list (string * raw)) :
  snd (server.hash_set_all h items)
  = Z.of_nat (length (fst (server.hash_set_all h items)))
    - Z.of_nat (length h).
Proof.
  revert h. induction items as [|[a v] items IH]; intros h; simpl.
  - lia.
  - pose proof (hash_set_new h a v) as [_ Hl].
    destruct (server.hash_set h a v) as [h1 new]. simpl in Hl.
    specialize (IH h1).
    destruct (server.hash_set_all h1 items) as [h2 n]. simpl in *.
    destruct new; lia.
Qed.

(** Field names stay distinct under [HSET]. *)
Lemma hash_set_names (h : list (string * raw)) (f : string) (v : raw) :
  List.map fst (fst (server.hash_set h f v)) =
  if snd (server.hash_set h f v) then List.map fst h ++ [f]
  else List.map fst h.
Proof.
  induction h as [|[a w] h IH]; simpl.
  - reflexivity.
  - destruct (String.eqb a f) eqn:E; simpl.
    + reflexivity.
    + destruct (server.hash_set h f v) as [h'' new]. simpl in *.
      rewrite IH. destruct new; reflexivity.
Qed.

Lemma hash_get_None_names (h : list (string * raw)) (f : string) :
  server.hash_get h f = None <-> ~ List.In f (List.map fst h).
Proof.
  induction h as [|[a w] h IH]; simpl.
  - tauto.
  - destruct (String.eqb a f) eqn:E.
    + apply String.eqb_eq in E. split; [discriminate | tauto].
    + apply String.eqb_neq in E. rewrite IH. tauto.
Qed.

Lemma NoDup_snoc (l : list string) (f : string) :
  List.NoDup l -> ~ List.In f l -> List.NoDup (l ++ [f]).
Proof.
  induction 1 as [|a l Ha Hnd IH]; intros Hf; simpl.
  - constructor; [intros [] | constructor].
  - constructor.
    + intros Hin. apply List.in_app_or in Hin. destruct Hin as [Hin|[->|[]]].
      * contradiction.
      * apply Hf. left. reflexivity.
    + apply IH. intros Hin. apply Hf. right. exact Hin.
Qed.

Lemma hash_set_NoDup (h : list (string * raw)) (f : string) (v : raw) :
  List.NoDup (List.map fst h) ->
  List.NoDup (List.map fst (fst (server.hash_set h f v))).
Proof.
  intros Hnd. rewrite hash_set_names.
  pose proof (hash_set_new h f v) as [Hnew _].
  destruct (snd (server.hash_set h f v)); [|exact Hnd].
  destruct (server.hash_get h f) eqn:E; [discriminate|].
  apply hash_get_None_names in E.
  apply NoDup_snoc; assumption.
Qed.

Lemma hash_set_all_NoDup (items h : list (string * raw)) :
  List.NoDup (List.map fst h) ->
  List.NoDup (List.map fst (fst (server.hash_set_all h items))).
Proof.
  revert h. induction items as [|[a v] items IH]; intros h Hnd; simpl.
  - exact Hnd.
  - pose proof (hash_set_NoDup h a v Hnd) as H1.
    destruct (server.hash_set h a v) as [h1 new]. simpl in H1.
    specialize (IH h1 H1).
    destruct (server.hash_set_all h1 items) as [h2 n]. exact IH.
Qed.

End HashFacts.

Section HashWrites.
Context `{C : Codec}.

Lemma field_reply_hash_at (s : server.t) (k f : string) :
  field_reply s k f = server.hash_get (hash_at s k) f.
Proof.
  unfold field_reply, hash_at.
  destruct (server.db s !! k) as [[[v|h] ex]|]; reflexivity.
Qed.

(** An accepted [HSET] followed by [EXPIRE] with a positive time: the reply
    is the count of new fields, and the key holds the updated hash with
    that time to live. *)
Lemma hset_expire_keyspace (s : server.t) (k : string)
    (items : list (string * raw)) (t : Z) :
  hash_or_absent s k -> items <> [] -> 0 < t ->
  let h' := server.hash_set_all (hash_at s k) items in
  exists m1,
    server.do_hset k items (server.db s) = (Ok (snd h'), m1)
    /\ snd (server.do_expire k t m1) !! k
       = Some {| server.value := server.RHash (fst h');
                 server.expire := Some t |}.
Proof.
  intros Hty Hne Ht h'. subst h'. unfold server.do_hset, hash_at.
  destruct items as [|i items]; [congruence|].
  assert (Hex : forall m (h : list (string * raw)) ex,
             snd (server.do_expire k t
                    (<[k := {| server.value := server.RHash h;
                               server.expire := ex |}]> m)) !! k
             = Some {| server.value := server.RHash h;
                       server.expire := Some t |}).
  { intros m h ex. unfold server.do_expire. rewrite lookup_insert_eq.
    destruct (t <=? 0) eqn:E; [apply Z.leb_le in E; lia|].
    cbn [snd server.value]. apply lookup_insert_eq. }
  destruct (server.db s !! k) as [[[v|h0] ex]|] eqn:E.
  - destruct (Hty _ E) as [h Hh]. discriminate Hh.
  - destruct (server.hash_set_all h0 (i :: items)) as [h n].
    eexists. split; [reflexivity|]. apply Hex.
  - destruct (server.hash_set_all [] (i :: items)) as [h n].
    eexists. split; [reflexivity|]. apply Hex.
Qed.

Lemma encode_items_names (mapping : list (string * Py.value))
    (items : list (string * raw)) :
  reds.encode_items mapping = Some items ->
  List.map fst items = List.map fst mapping.
Proof.
  revert items. induction mapping as [|[f v] mapping IH]; intros items; simpl.
  - intros [= <-]. reflexivity.
  - destruct (encode v); [|discriminate].
    destruct (reds.encode_items mapping) as [rs|]; [|discriminate].
    intros [= <-]. simpl. rewrite (IH rs eq_refl). reflexivity.
Qed.

Lemma assoc_last_In {A : Type} (items : list (string * A)) (f : string) :
  assoc_last items f <> None -> List.In f (List.map fst items).
Proof.
  induction items as [|[b u] items IH]; simpl; [congruence|].
  destruct (assoc_last items f).
  - intros _. right. apply IH. discriminate.
  - destruct (String.eqb b f) eqn:Eb; [|congruence].
    apply String.eqb_eq in Eb. intros _. left. exact Eb.
Qed.

(** With distinct names, the last binding of a name is its only one. *)
Lemma assoc_last_NoDup {A : Type} (items : list (string * A)) (f : string)
    (v : A) :
  List.NoDup (List.map fst items) -> List.In (f, v) items ->
  assoc_last items f = Some v.
Proof.
  induction items as [|[a w] items IH]; simpl; [contradiction|].
  intros Hnd Hin. inversion Hnd as [|? ? Ha Hnd']; subst.
  destruct Hin as [[= -> ->]|Hin].
  - destruct (assoc_last items f) as [w'|] eqn:E.
    + exfalso. apply Ha. apply assoc_last_In. rewrite E. discriminate.
    + rewrite String.eqb_refl. reflexivity.
  - rewrite (IH Hnd' Hin). reflexivity.
Qed.

End HashWrites.

(** What an accepted [hset] leaves behind when the time to live is
    positive: the count of the new fields is returned and the key holds the
    updated hash. *)
Lemma hset_accepted `{C : Codec} (self : Redis.t) (key field : string)
    (val : Py.value) (mapping : option (list (string * Py.value)))
    (ttl : option Z) (pre ver : option string)
    (items : list (string * raw)) (s : server.t) :
  let k := Redis._cleankey self (spec_starter key None pre ver) in
  reds.encode_items ((field, val) :: default [] mapping) = Some items ->
  hash_or_absent s k ->
  0 < default Redis.ttl ttl ->
  let h' := server.hash_set_all (hash_at s k) items in
  exists s1,
    Redis.hset (V:=spec_models) self key field val mapping ttl pre ver s
    = (Ok (snd h'), s1)
    /\ server.db s1 !! k
       = Some {| server.value := server.RHash (fst h');
                 server.expire := Some (default Redis.ttl ttl) |}.
Proof.
  intros k Henc Hty Ht h'. rewrite hset_full. cbv zeta.
  change (Redis._cleankey self (spec_starter key ttl pre ver)) with k.
  rewrite Henc.
  destruct (hset_expire_keyspace s k items (default Redis.ttl ttl) Hty
              (encode_items_cons _ _ _ Henc) Ht) as (m1 & Hw & Hk).
  rewrite Hw. eexists. split; [reflexivity|]. exact Hk.
Qed.

Lemma hmset_accepted `{C : Codec} (self : Redis.t) (key : string)
    (mapping : list (string * Py.value)) (ttl : option Z)
    (pre ver : option string) (items : list (string * raw)) (s : server.t) :
  let k := Redis._cleankey self (spec_starter key None pre ver) in
  mapping <> [] ->
  reds.encode_items mapping = Some items ->
  hash_or_absent s k ->
  0 < default Redis.ttl ttl ->
  let h' := server.hash_set_all (hash_at s k) items in
  exists s1,
    Redis.hmset (V:=spec_models) self key mapping ttl pre ver s
    = (Ok (snd h'), s1)
    /\ server.db s1 !! k
       = Some {| server.value := server.RHash (fst h');
                 server.expire := Some (default Redis.ttl ttl) |}.
Proof.
  intros k Hne Henc Hty Ht h'. rewrite hmset_full by exact Hne. cbv zeta.
  change (Redis._cleankey self (spec_starter key ttl pre ver)) with k.
  rewrite Henc.
  assert (Hi : items <> []).
  { destruct mapping as [|p mapping]; [congruence|].
    exact (encode_items_cons _ _ _ Henc). }
  destruct (hset_expire_keyspace s k items (default Redis.ttl ttl) Hty Hi Ht)
    as (m1 & Hw & Hk).
  rewrite Hw. eexists. split; [reflexivity|]. exact Hk.
Qed.

(** X9: [hget] after [hset] reads what was written.  When the write is
    accepted and the time to live is positive, a field named in the call
    reads as the decoding of the last value the call gave it, and every
    other field reads as before, both subject to the default rule of
    [hget]. *)
Theorem hset_then_hget `{C : Codec} (self : Redis.t) (key field : string)
    (val : Py.value) (mapping : option (list (string * Py.value)))
    (ttl : option Z) (pre ver : option string)
    (items : list (string * raw)) (s : server.t) :
  let k := Redis._cleankey self (spec_starter key None pre ver) in
  reds.encode_items ((field, val) :: default [] mapping) = Some items ->
  hash_or_absent s k ->
  0 < default Redis.ttl ttl ->
  exists r s1,
    Redis.hset (V:=spec_models) self key field val mapping ttl pre ver s
    = (Ok r, s1)
    /\ forall f dflt,
         fst (Redis.hget (V:=spec_models) self key f dflt pre ver s1)
         = Ok (let d := byte_conv (match assoc_last items f with
                                   | Some w => Some w
                                   | None => field_reply s k f
                                   end) in
               if Py.truthy d || Py.eqb d (Py.VInt 0) then d else dflt).
Proof.
  intros k Henc Hty Ht.
  destruct (hset_accepted self key field val mapping ttl pre ver items s
              Henc Hty Ht) as (s1 & Hcall & Hk).
  eexists _, s1. split; [exact Hcall|].
  intros f dflt. subst k.
  assert (Hf : field_reply s1
                 (Redis._cleankey self (spec_starter key None pre ver)) f
               = match assoc_last items f with
                 | Some w => Some w
                 | None =>
                     field_reply s
                       (Redis._cleankey self (spec_starter key None pre ver)) f
                 end).
  { rewrite !field_reply_hash_at. unfold hash_at at 1. rewrite Hk.
    apply hash_get_set_all. }
  rewrite hget_run. cbv zeta. rewrite Hk. cbn [fst]. rewrite Hf.
  reflexivity.
Qed.

Lemma hset_then_hget_witness :
  exists r s1,
    @Redis.hset passthrough spec_models plain "h" "g" (Py.VInt 0)
      (Some [("f", Py.VStr "x")]) None None None empty_string_server
    = (Ok r, s1)
    /\ fst (@Redis.hget passthrough spec_models plain "h" "g" (Py.VStr "D")
              None None s1) = Ok (Py.VInt 0)
    /\ fst (@Redis.hget passthrough spec_models plain "h" "f" (Py.VStr "D")
              None None s1) = Ok (Py.VStr "x").
Proof.
  assert (Hty : hash_or_absent empty_string_server "h").
  { intros e He. vm_compute in He. injection He as <-.
    eexists. reflexivity. }
  destruct (@hset_then_hget passthrough plain "h" "g" (Py.VInt 0)
              (Some [("f", Py.VStr "x")]) None None None
              [("g", Py.VInt 0); ("f", Py.VStr "x")] empty_string_server
              eq_refl Hty ltac:(reflexivity))
    as (r & s1 & Hcall & Hget).
  exists r, s1. split; [exact Hcall|]. split.
  - rewrite Hget. reflexivity.
  - rewrite Hget. reflexivity.
Defined.

(** X10: [hset] returns the number of fields it created; a field that was
    there and is set again counts as 0.  When the write is accepted and the
    time to live is positive, the returned count is the number of fields
    the hash gained, and for a single field it is 1 if the field was not
    there and 0 if it was. *)
Theorem hset_counts_created_fields `{C : Codec} (self : Redis.t)
    (key field : string) (val : Py.value)
    (mapping : option (list (string * Py.value))) (ttl : option Z)
    (pre ver : option string) (items : list (string * raw)) (s : server.t) :
  let k := Redis._cleankey self (spec_starter key None pre ver) in
  reds.encode_items ((field, val) :: default [] mapping) = Some items ->
  hash_or_absent s k ->
  0 < default Redis.ttl ttl ->
  exists r s1,
    Redis.hset (V:=spec_models) self key field val mapping ttl pre ver s
    = (Ok r, s1)
    /\ r = Z.of_nat (length (hash_at s1 k)) - Z.of_nat (length (hash_at s k))
    /\ (default [] mapping = [] ->
        r = match field_reply s k field with
            | Some _ => 0
            | None => 1
            end).
Proof.
  intros k Henc Hty Ht.
  destruct (hset_accepted self key field val mapping ttl pre ver items s
              Henc Hty Ht) as (s1 & Hcall & Hk).
  subst k. eexists _, s1. split; [exact Hcall|]. split.
  - assert (H1 : hash_at s1
                   (Redis._cleankey self (spec_starter key None pre ver))
                 = fst (server.hash_set_all
                          (hash_at s (Redis._cleankey self
                                        (spec_starter key None pre ver)))
                          items)).
    { unfold hash_at at 1. rewrite Hk. reflexivity. }
    rewrite H1. apply hash_set_all_count.
  - intros Hm. rewrite Hm in Henc. simpl in Henc.
    destruct (encode val) as [v|]; [|discriminate].
    injection Henc as <-. cbn [server.hash_set_all].
    rewrite field_reply_hash_at.
    set (h := hash_at s _).
    pose proof (hash_set_new h field v) as [Hnew _].
    destruct (server.hash_set h field v) as [h1 new].
    cbn [snd] in *. rewrite Hnew.
    destruct (server.hash_get h field); reflexivity.
Qed.

Lemma hset_counts_created_fields_witness :
  exists s1 s2,
    @Redis.hset passthrough spec_models plain "h" "f" (Py.VInt 1) None None
      None None empty_string_server = (Ok 0, s1)
    /\ @Redis.hset passthrough spec_models plain "h" "g" (Py.VInt 1) None None
         None None empty_string_server = (Ok 1, s2).
Proof.
  assert (Hty : hash_or_absent empty_string_server "h").
  { intros e He. vm_compute in He. injection He as <-.
    eexists. reflexivity. }
  destruct (@hset_counts_created_fields passthrough plain "h" "f" (Py.VInt 1)
              None None None None [("f", Py.VInt 1)] empty_string_server
              eq_refl Hty ltac:(reflexivity))
    as (r1 & s1 & Hcall1 & _ & Hone1).
  destruct (@hset_counts_created_fields passthrough plain "h" "g" (Py.VInt 1)
              None None None None [("g", Py.VInt 1)] empty_string_server
              eq_refl Hty ltac:(reflexivity))
    as (r2 & s2 & Hcall2 & _ & Hone2).
  exists s1, s2. split.
  - rewrite Hcall1. f_equal. f_equal. exact (Hone1 eq_refl).
  - rewrite Hcall2. f_equal. f_equal. exact (Hone2 eq_refl).
Defined.

(** X11: [hmget] of the fields of a mapping right after [hmset] of that
    mapping gives the mapping back.  When the write is accepted, the names
    of the mapping are distinct and the time to live is positive, the
    result pairs each name, in the order of the mapping, with the decoding
    of the value that was stored for it, whether the names are asked for
    as a list or as a tuple. *)
Theorem hmset_then_hmget `{C : Codec} (self : Redis.t) (key : string)
    (mapping : list (string * Py.value)) (ttl : option Z)
    (pre ver : option string) (items : list (string * raw))
    (names : Py.sequence) (s : server.t) :
  let k := Redis._cleankey self (spec_starter key None pre ver) in
  mapping <> [] ->
  reds.encode_items mapping = Some items ->
  List.NoDup (List.map fst mapping) ->
  Py.elements names = List.map fst mapping ->
  hash_or_absent s k ->
  0 < default Redis.ttl ttl ->
  exists r s1 s2,
    Redis.hmset (V:=spec_models) self key mapping ttl pre ver s = (Ok r, s1)
    /\ Redis.hmget (V:=spec_models) self key (Some names)
         pre ver s1
       = (Ok (List.map (fun p => (Py.VStr (fst p), byte_conv (Some (snd p))))
                items),
          s2).
Proof.
  intros k Hne Henc Hnd Hel Hty Ht. subst k.
  set (k := Redis._cleankey self (spec_starter key None pre ver)) in *.
  destruct (hmset_accepted self key mapping ttl pre ver items s Hne Henc
              Hty Ht) as (s1 & Hcall & Hk).
  fold k in Hk.
  pose proof (encode_items_names _ _ Henc) as Hnames.
  assert (Hty1 : hash_or_absent s1 k).
  { intros e He. rewrite Hk in He. injection He as <-.
    eexists. reflexivity. }
  assert (Hfs : Py.elements names <> []).
  { rewrite Hel. destruct mapping; [congruence | discriminate]. }
  eexists _, s1, _. split; [exact Hcall|].
  rewrite (hmget_run self key names pre ver s1 Hfs Hty1).
  fold k. rewrite Hel. f_equal. f_equal.
  rewrite (dict_of_fields (fun f => byte_conv (field_reply s1 k f))).
  rewrite (uniq_NoDup _ Hnd), <- Hnames, List.map_map.
  apply List.map_ext_in. intros [f w] Hin. unfold field_pair. cbn [fst snd].
  do 2 f_equal. rewrite field_reply_hash_at. unfold hash_at. rewrite Hk.
  rewrite hash_get_set_all.
  rewrite (assoc_last_NoDup items f w); [reflexivity | | exact Hin].
  rewrite Hnames. exact Hnd.
Qed.

Lemma hmset_then_hmget_witness :
  exists r s1 s2,
    @Redis.hmset passthrough spec_models plain "user"
      [("age", Py.VInt 34); ("username", Py.VStr "enchance");
       ("gender", Py.VStr "m")] None None None only_a_server = (Ok r, s1)
    /\ @Redis.hmget passthrough spec_models plain "user"
         (Some (Py.PyList ["age"; "username"; "gender"])) None None s1
       = (Ok [(Py.VStr "age", Py.VInt 34);
              (Py.VStr "username", Py.VStr "enchance");
              (Py.VStr "gender", Py.VStr "m")], s2).
Proof.
  assert (Hty : hash_or_absent only_a_server "user").
  { intros e He. vm_compute in He. discriminate He. }
  assert (Hnd : List.NoDup ["age"; "username"; "gender"]).
  { repeat constructor; simpl; intros H;
      repeat (destruct H as [H|H]; [discriminate H|]); exact H. }
  exact (@hmset_then_hmget passthrough plain "user"
           [("age", Py.VInt 34); ("username", Py.VStr "enchance");
            ("gender", Py.VStr "m")] None None None
           [("age", Py.VInt 34); ("username", Py.VStr "enchance");
            ("gender", Py.VStr "m")]
           (Py.PyList ["age"; "username"; "gender"]) only_a_server
           ltac:(discriminate) eq_refl Hnd eq_refl Hty ltac:(reflexivity)).
Defined.

Lemma hash_get_NoDup `{C : Codec} (h : list (string * raw)) (f : string)
    (v : raw) :
  List.NoDup (List.map fst h) -> List.In (f, v) h ->
  server.hash_get h f = Some v.
Proof.
  induction h as [|[a w] h IH]; simpl; [contradiction|].
  intros Hnd Hin. inversion Hnd as [|? ? Ha Hnd']; subst.
  destruct Hin as [[= -> ->]|Hin].
  - rewrite String.eqb_refl. reflexivity.
  - destruct (String.eqb a f) eqn:E; [|exact (IH Hnd' Hin)].
    apply String.eqb_eq in E. subst a. exfalso. apply Ha.
    apply List.in_map_iff. exists (f, v). split; [reflexivity | exact Hin].
Qed.

(** X12: [hmget] without fields returns the whole hash.  On a key that is
    not there the result is the empty mapping.  On a hash with distinct
    field names, each of which decodes to the string it is, the result
    pairs every field name, in the order of the store, with its decoded
    value. *)
Theorem hmget_without_fields `{C : Codec} (self : Redis.t) (key : string)
    (pre ver : option string) (s : server.t) :
  let k := Redis._cleankey self (spec_starter key None pre ver) in
  (server.db s !! k = None ->
   fst (Redis.hmget (V:=spec_models) self key None pre ver s) = Ok [])
  /\ (forall h ex,
        server.db s !! k
        = Some {| server.value := server.RHash h; server.expire := ex |} ->
        List.NoDup (List.map fst h) ->
        (forall p, List.In p h ->
                   byte_conv (Some (raw_of_str (fst p))) = Py.VStr (fst p)) ->
        fst (Redis.hmget (V:=spec_models) self key None pre ver s)
        = Ok (List.map (fun p => (Py.VStr (fst p), byte_conv (Some (snd p))))
                h)).
Proof.
  intros k. split.
  - intros Hk. rewrite hmget_all_run. cbv zeta. fold k.
    unfold hash_at. rewrite Hk. reflexivity.
  - intros h ex Hk Hnd Hname. rewrite hmget_all_run. cbv zeta. fold k.
    unfold hash_at. rewrite Hk. cbn [fst]. f_equal.
    assert (Hn : List.map (fun x => byte_conv (Some (raw_of_str x)))
                   (List.map fst h)
                 = List.map Py.VStr (List.map fst h)).
    { rewrite !List.map_map. apply List.map_ext_in. exact Hname. }
    rewrite Hn.
    assert (Hv : List.map (fun x => byte_conv (Some x)) (List.map snd h)
                 = List.map (fun f => byte_conv (server.hash_get h f))
                     (List.map fst h)).
    { rewrite !List.map_map. apply List.map_ext_in. intros [f v] Hin.
      cbn [fst snd]. rewrite (hash_get_NoDup h f v Hnd Hin). reflexivity. }
    rewrite Hv, (dict_of_fields (fun f => byte_conv (server.hash_get h f))).
    rewrite (uniq_NoDup _ Hnd), List.map_map.
    apply List.map_ext_in. intros [f v] Hin. unfold field_pair.
    cbn [fst snd]. rewrite (hash_get_NoDup h f v Hnd Hin). reflexivity.
Qed.

Lemma hmget_without_fields_witness :
  fst (@Redis.hmget wire spec_models plain "nope" None None None
         user_wire_server) = Ok []
  /\ fst (@Redis.hmget wire spec_models plain "user" None None None
            user_wire_server)
     = Ok [(Py.VStr "username", Py.VStr "enchance");
           (Py.VStr "gender", Py.VStr "m")].
Proof.
  pose proof (@hmget_without_fields wire plain "nope" None None
                user_wire_server) as [H1 _].
  pose proof (@hmget_without_fields wire plain "user" None None
                user_wire_server) as [_ H2].
  split.
  - apply H1. vm_compute. reflexivity.
  - apply (H2 [("username", Bytes "enchance"); ("gender", Bytes "m")] None).
    + vm_compute. reflexivity.
    + repeat constructor; simpl; intros H;
        repeat (destruct H as [H|H]; [discriminate H|]); exact H.
    + intros p [<-|[<-|[]]]; vm_compute; reflexivity.
Defined.

(** X13: a key or a field that is not there reads as the default.  When the
    codec decodes the nil reply to [None], [get] on a missing key returns
    the default of the call, and so does [hget] on a missing key or on a
    hash without the field. *)
Theorem missing_reads_give_default `{C : Codec} (self : Redis.t)
    (key : string) (default : Py.value) (pre ver : option string)
    (s : server.t) :
  let k := Redis._cleankey self (spec_starter key None pre ver) in
  byte_conv None = Py.VNone ->
  (server.db s !! k = None ->
   fst (Redis.get (V:=spec_models) self key default pre ver s) = Ok default)
  /\ (forall field,
        hash_or_absent s k ->
        field_reply s k field = None ->
        fst (Redis.hget (V:=spec_models) self key field default pre ver s)
        = Ok default).
Proof.
  intros k Hnil. split.
  - intros Hk. rewrite get_run. cbv zeta. fold k.
    unfold string_reply. rewrite Hk, Hnil. reflexivity.
  - intros field Hty Hf. rewrite hget_run. cbv zeta. fold k. rewrite Hf, Hnil.
    destruct (server.db s !! k) as [[[v|h] ex]|] eqn:E; try reflexivity.
    destruct (Hty _ E) as [h Hh]. discriminate Hh.
Qed.

Lemma missing_reads_give_default_witness :
  fst (@Redis.get passthrough spec_models plain "nope" (Py.VStr "D") None None
         empty_string_server) = Ok (Py.VStr "D")
  /\ fst (@Redis.hget passthrough spec_models plain "h" "nope" (Py.VStr "D")
            None None empty_string_server) = Ok (Py.VStr "D").
Proof.
  pose proof (@missing_reads_give_default passthrough plain "nope"
                (Py.VStr "D") None None empty_string_server eq_refl)
    as [H1 _].
  pose proof (@missing_reads_give_default passthrough plain "h"
                (Py.VStr "D") None None empty_string_server eq_refl)
    as [_ H2].
  split.
  - apply H1. vm_compute. reflexivity.
  - apply H2.
    + intros e He. vm_compute in He. injection He as <-.
      eexists. reflexivity.
    + vm_compute. reflexivity.
Defined.

(** ** Deleting fields and keys *)

Section HashDeletes.
Context `{C : Codec}.

Lemma hash_del_names (h : list (string * raw)) (f x : string) :
  List.In x (List.map fst (fst (server.hash_del h f))) ->
  List.In x (List.map fst h).
Proof.
  induction h as [|[a w] h IH]; simpl; [tauto|].
  destruct (String.eqb a f); simpl.
  - intros H. right. exact H.
  - destruct (server.hash_del h f) as [h'' gone]. simpl in *.
    intros [H|H]; [left; exact H | right; exact (IH H)].
Qed.

Lemma hash_del_NoDup (h : list (string * raw)) (f : string) :
  List.NoDup (List.map fst h) ->
  List.NoDup (List.map fst (fst (server.hash_del h f))).
Proof.
  induction h as [|[a w] h IH]; simpl; [intros H; exact H|].
  intros Hnd. inversion Hnd as [|? ? Ha Hnd']; subst.
  destruct (String.eqb a f); simpl; [exact Hnd'|].
  pose proof (hash_del_names h f a) as Hsub. specialize (IH Hnd').
  destruct (server.hash_del h f) as [h'' gone]. simpl in *.
  constructor; [|exact IH]. intros Hin. apply Ha. exact (Hsub Hin).
Qed.

Lemma hash_del_get (h : list (string * raw)) (f f' : string) :
  List.NoDup (List.map fst h) ->
  server.hash_get (fst (server.hash_del h f)) f' =
  if String.eqb f f' then None else server.hash_get h f'.
Proof.
  induction h as [|[a w] h IH]; simpl.
  - intros _. destruct (String.eqb f f'); reflexivity.
  - intros Hnd. inversion Hnd as [|? ? Ha Hnd']; subst.
    destruct (String.eqb a f) eqn:Eaf; simpl.
    + apply String.eqb_eq in Eaf. subst a.
      destruct (String.eqb f f') eqn:Eff; [|reflexivity].
      apply String.eqb_eq in Eff. subst f'.
      apply hash_get_None_names. exact Ha.
    + specialize (IH Hnd').
      destruct (server.hash_del h f) as [h'' gone]. simpl in *.
      destruct (String.eqb a f') eqn:Eaf'; [|exact IH].
      apply String.eqb_eq in Eaf'. subst f'.
      rewrite String.eqb_sym, Eaf. reflexivity.
Qed.

Lemma hash_del_length (h : list (string * raw)) (f : string) :
  length h = (length (fst (server.hash_del h f))
              + if snd (server.hash_del h f) then 1 else 0)%nat.
Proof.
  induction h as [|[a w] h IH]; simpl; [reflexivity|].
  destruct (String.eqb a f); simpl; [lia|].
  destruct (server.hash_del h f) as [h'' gone]. simpl in *. lia.
Qed.

(** [HDEL] on a hash with distinct field names: the fields named are gone,
    the others are as before, and the count is the number of fields the
    hash lost. *)
Lemma hash_del_all_spec (fs : list string) (h : list (string * raw)) :
  List.NoDup (List.map fst h) ->
  (forall f, server.hash_get (fst (server.hash_del_all h fs)) f =
             if List.existsb (String.eqb f) fs then None
             else server.hash_get h f)
  /\ snd (server.hash_del_all h fs)
     = Z.of_nat (length h)
       - Z.of_nat (length (fst (server.hash_del_all h fs))).
Proof.
  revert h. induction fs as [|a fs IH]; intros h Hnd; simpl.
  - split; [reflexivity | lia].
  - pose proof (hash_del_get h a) as Hg.
    pose proof (hash_del_length h a) as Hl.
    pose proof (hash_del_NoDup h a Hnd) as Hnd1.
    destruct (server.hash_del h a) as [h1 gone]. simpl in *.
    destruct (IH h1 Hnd1) as [IH1 IH2].
    destruct (server.hash_del_all h1 fs) as [h2 n]. simpl in *.
    split.
    + intros f. rewrite IH1, (Hg f Hnd), (String.eqb_sym f a).
      destruct (String.eqb a f); simpl;
        destruct (List.existsb (String.eqb f) fs); reflexivity.
    + destruct gone; lia.
Qed.

(** Deleting keys none of which is there removes nothing. *)
Lemma del_all_absent (names : list string) (m : gmap string server.entry) :
  (forall n, List.In n names -> m !! n = None) ->
  server.del_all names m = (m, 0).
Proof.
  induction names as [|n names IH]; intros Habs; simpl; [reflexivity|].
  rewrite (Habs n (or_introl eq_refl)).
  rewrite IH; [reflexivity|]. intros x Hx. apply Habs. right. exact Hx.
Qed.

End HashDeletes.

(** What [hdel] does once its model is built: one [HDEL] with the fields as
    a sequence. *)
Lemma hdel_run `{C : Codec} (self : Redis.t) (key : string) (x : str_or_seq)
    (pre ver : option string) (s : server.t) :
  to_seq x <> [] ->
  let k := Redis._cleankey self (spec_starter key None pre ver) in
  Redis.hdel (V:=spec_models) self key (Some x) pre ver s =
  (fst (server.do_hdel k (to_seq x) (server.db s)),
   {| server.db := snd (server.do_hdel k (to_seq x) (server.db s));
      server.log := server.log s ++ [server.HDEL k (to_seq x)] |}).
Proof.
  intros Hne k. unfold Redis.hdel. cbn [models.Hdel spec_models].
  unfold spec_Hdel. destruct (to_seq x) as [|f fs] eqn:E; [congruence|].
  cbn [validate]. unfold bind at 1, ret at 1.
  cbn [models.Hdel_base models.Hdel_fields_]. fold k.
  rewrite bind_ret_map. unfold reds.hdel. rewrite execute_command_state.
  cbn [fst snd].
  destruct (fst (server.do_hdel k (f :: fs) (server.db s))); reflexivity.
Qed.

(** X14: [hdel] removes the fields it names and only those, and returns how
    many it removed.  On a key that holds no string, whose hash has
    distinct field names, the call returns the number of fields the hash
    lost; afterwards a field that was named is not there, every other field
    is as before, and a hash left without fields is no longer in the
    store. *)
Theorem hdel_removes_fields `{C : Codec} (self : Redis.t) (key : string)
    (x : str_or_seq) (pre ver : option string) (s : server.t) :
  let k := Redis._cleankey self (spec_starter key None pre ver) in
  to_seq x <> [] ->
  hash_or_absent s k ->
  List.NoDup (List.map fst (hash_at s k)) ->
  exists s',
    Redis.hdel (V:=spec_models) self key (Some x) pre ver s
    = (Ok (Z.of_nat (length (hash_at s k))
           - Z.of_nat (length (hash_at s' k))), s')
    /\ (forall f, field_reply s' k f =
                  if List.existsb (String.eqb f) (to_seq x) then None
                  else field_reply s k f)
    /\ (hash_at s' k = [] -> server.db s' !! k = None).
Proof.
  intros k Hne Hty Hnd. rewrite (hdel_run self key x pre ver s Hne).
  fold k. unfold server.do_hdel.
  destruct (to_seq x) as [|f0 fs0] eqn:Ex; [congruence|].
  rewrite <- Ex in *. clear Ex f0 fs0.
  assert (Hrep : forall (s0 : server.t) f,
             field_reply s0 k f = server.hash_get (hash_at s0 k) f)
    by (intros; apply field_reply_hash_at).
  unfold hash_at in Hnd.
  destruct (server.db s !! k) as [[[v|h0] ex]|] eqn:E.
  - destruct (Hty _ E) as [h Hh]. discriminate Hh.
  - destruct (hash_del_all_spec (to_seq x) h0 Hnd) as [Hget Hcount].
    assert (Hat : hash_at s k = h0) by (unfold hash_at; rewrite E; reflexivity).
    destruct (server.hash_del_all h0 (to_seq x)) as [[|p h] n] eqn:Ed;
      cbn [fst snd] in *.
    + eexists. split; [|split].
      * f_equal. f_equal. unfold hash_at at 2. cbn [server.db].
        rewrite lookup_delete_eq, Hat, Hcount. reflexivity.
      * intros f. rewrite !Hrep, Hat. unfold hash_at. cbn [server.db].
        rewrite lookup_delete_eq. apply Hget.
      * intros _. cbn [server.db]. apply lookup_delete_eq.
    + eexists. split; [|split].
      * f_equal. f_equal. unfold hash_at at 2. cbn [server.db].
        rewrite lookup_insert_eq, Hat, Hcount. reflexivity.
      * intros f. rewrite !Hrep, Hat. unfold hash_at. cbn [server.db].
        rewrite lookup_insert_eq. apply Hget.
      * unfold hash_at. cbn [server.db]. rewrite lookup_insert_eq.
        discriminate.
  - assert (Hat : hash_at s k = []) by (unfold hash_at; rewrite E; reflexivity).
    cbn [fst snd]. eexists. split; [|split].
    + f_equal. f_equal. unfold hash_at at 2. cbn [server.db].
      rewrite E, Hat. reflexivity.
    + intros f. rewrite !Hrep, Hat. unfold hash_at. cbn [server.db].
      rewrite E. simpl. destruct (List.existsb _ _); reflexivity.
    + intros _. cbn [server.db]. exact E.
Qed.

Lemma hdel_removes_fields_witness :
  exists s',
    @Redis.hdel passthrough spec_models plain "h" (Some (Seq ["f"; "zz"]))
      None None empty_string_server = (Ok 1, s')
    /\ field_reply s' "h" "f" = None
    /\ server.db s' !! "h" = None.
Proof.
  assert (Hty : hash_or_absent empty_string_server "h").
  { intros e He. vm_compute in He. injection He as <-.
    eexists. reflexivity. }
  assert (Hnd : List.NoDup
                  (List.map fst (hash_at empty_string_server "h"))).
  { vm_compute. repeat constructor. intros []. }
  destruct (@hdel_removes_fields passthrough plain "h" (Seq ["f"; "zz"])
              None None empty_string_server ltac:(discriminate) Hty Hnd)
    as (s' & Hcall & Hf & Hgone).
  assert (Hone : fst (@Redis.hdel passthrough spec_models plain "h"
                        (Some (Seq ["f"; "zz"])) None None
                        empty_string_server) = Ok 1)
    by (vm_compute; reflexivity).
  rewrite Hcall in Hone. cbn [fst] in Hone. injection Hone as Hone.
  assert (Hlen : hash_at s' "h" = []).
  { change (Redis._cleankey plain (spec_starter "h" None None None))
      with "h" in Hone.
    match type of Hone with
    | ?a - _ = _ =>
        assert (Ha : a = 1) by (vm_compute; reflexivity); rewrite Ha in Hone
    end.
    destruct (hash_at s' "h"); [reflexivity|].
    simpl in Hone. lia. }
  exists s'. split; [|split].
  - rewrite Hcall. f_equal. f_equal. exact Hone.
  - exact (Hf "f").
  - apply Hgone. exact Hlen.
Defined.

(** X15: a key that was deleted reads as the default.  When the codec
    decodes the nil reply to [None], after [delete] of a key or of a
    sequence of keys, [get] of any of them, with the same prefix and
    version, returns the default of the call. *)
Theorem delete_then_get_default `{C : Codec} (self : Redis.t)
    (key : str_or_seq) (base : string) (default : Py.value)
    (pre ver : option string) (s : server.t) :
  byte_conv None = Py.VNone ->
  List.In base (to_seq key) ->
  exists n s',
    Redis.delete (V:=spec_models) self key pre ver s = (Ok n, s')
    /\ fst (Redis.get (V:=spec_models) self base default pre ver s')
       = Ok default.
Proof.
  intros Hnil Hin. rewrite delete_run. cbv zeta.
  set (cleaned := List.map _ (to_seq key)).
  set (kb := Redis._cleankey self (spec_starter base None pre ver)).
  assert (Hmem : kb ∈ cleaned).
  { apply list_elem_of_In. apply List.in_map_iff. exists base.
    split; [reflexivity | exact Hin]. }
  unfold server.do_del.
  destruct cleaned as [|c cs] eqn:Ec.
  { apply not_elem_of_nil in Hmem. contradiction. }
  rewrite <- Ec in *.
  destruct (del_all_spec cleaned (server.db s)) as [_ Hk].
  destruct (server.del_all cleaned (server.db s)) as [m' n].
  cbn [fst snd] in *. eexists _, _. split; [reflexivity|].
  rewrite get_run. cbv zeta. fold kb. unfold string_reply. cbn [server.db].
  rewrite (Hk kb). destruct (decide (kb ∈ cleaned)); [|contradiction].
  rewrite Hnil. reflexivity.
Qed.

Lemma delete_then_get_default_witness :
  exists n s',
    @Redis.delete passthrough spec_models plain (Seq ["a"; "b"]) None None
      only_a_server = (Ok n, s')
    /\ fst (@Redis.get passthrough spec_models plain "a" (Py.VStr "D") None
              None s') = Ok (Py.VStr "D").
Proof.
  exact (@delete_then_get_default passthrough plain (Seq ["a"; "b"]) "a"
           (Py.VStr "D") None None only_a_server eq_refl
           ltac:(left; reflexivity)).
Defined.

(** X16: deleting what is not there removes nothing and returns 0.
    [delete] of keys none of which is in the store, and [hdel] on a key
    that is not in the store, return 0 and leave the keyspace as it was;
    the command is sent all the same. *)
Theorem deleting_the_absent_returns_zero `{C : Codec} (self : Redis.t)
    (pre ver : option string) (s : server.t) :
  (forall key,
     let cleaned :=
       List.map
         (fun base => Redis._cleankey self (spec_starter base None pre ver))
         (to_seq key) in
     to_seq key <> [] ->
     (forall k, List.In k cleaned -> server.db s !! k = None) ->
     Redis.delete (V:=spec_models) self key pre ver s
     = (Ok 0, {| server.db := server.db s;
                 server.log := server.log s ++ [server.DEL cleaned] |}))
  /\ (forall key x,
        let k := Redis._cleankey self (spec_starter key None pre ver) in
        to_seq x <> [] ->
        server.db s !! k = None ->
        Redis.hdel (V:=spec_models) self key (Some x) pre ver s
        = (Ok 0, {| server.db := server.db s;
                    server.log := server.log s
                                  ++ [server.HDEL k (to_seq x)] |})).
Proof.
  split.
  - intros key cleaned Hne Habs. rewrite delete_run. cbv zeta. fold cleaned.
    unfold server.do_del. rewrite (del_all_absent cleaned _ Habs).
    destruct cleaned as [|c cs] eqn:Ec; [|reflexivity].
    exfalso. apply Hne. subst cleaned.
    destruct (to_seq key); [reflexivity | discriminate Ec].
  - intros key x k Hne Hk. rewrite (hdel_run self key x pre ver s Hne).
    fold k. unfold server.do_hdel. rewrite Hk.
    destruct (to_seq x); [congruence | reflexivity].
Qed.

Lemma deleting_the_absent_returns_zero_witness :
  fst (@Redis.delete passthrough spec_models plain (Seq ["x"; "y"]) None None
         only_a_server) = Ok 0
  /\ fst (@Redis.hdel passthrough spec_models plain "x" (Some (OneStr "f"))
            None None only_a_server) = Ok 0.
Proof.
  pose proof (@deleting_the_absent_returns_zero passthrough plain None None
                only_a_server) as [H1 H2].
  split.
  - rewrite (H1 (Seq ["x"; "y"])); [reflexivity | discriminate |].
    intros k [<-|[<-|[]]]; vm_compute; reflexivity.
  - rewrite (H2 "x" (OneStr "f")); [reflexivity | discriminate |].
    vm_compute. reflexivity.
Defined.

(** ** More on key composition *)

Lemma rstrip_idempotent (s : string) : Py.rstrip (Py.rstrip s) = Py.rstrip s.
Proof.
  induction s as [|c s IH]; simpl; [reflexivity|].
  destruct (Py.rstrip s) as [|c' r] eqn:E.
  - destruct (Py.isspace c) eqn:Ec; simpl; [reflexivity|].
    rewrite Ec. reflexivity.
  - change (Py.rstrip (String c (String c' r)))
      with (match Py.rstrip (String c' r) with
            | EmptyString =>
                if Py.isspace c then EmptyString else String c EmptyString
            | r0 => String c r0
            end).
    rewrite IH. reflexivity.
Qed.

(** A string that starts with a character that is no whitespace keeps it
    under [rstrip] and is left alone by [lstrip]. *)
Lemma lstrip_rstrip_lstrip (s : string) :
  Py.lstrip (Py.rstrip (Py.lstrip s)) = Py.rstrip (Py.lstrip s).
Proof.
  induction s as [|c s IH]; simpl; [reflexivity|].
  destruct (Py.isspace c) eqn:Ec; [exact IH|].
  simpl. destruct (Py.rstrip s) as [|c' r]; rewrite ?Ec; simpl;
    rewrite Ec; reflexivity.
Qed.

Lemma strip_idempotent (s : string) : Py.strip (Py.strip s) = Py.strip s.
Proof.
  unfold Py.strip. rewrite lstrip_rstrip_lstrip. apply rstrip_idempotent.
Qed.

(** X17: whitespace around the instance prefix and version does not matter.
    A client whose prefix and version carry leading or trailing whitespace
    composes, for every model, the key that the client with the trimmed
    prefix and version composes. *)
Theorem instance_namespace_is_trimmed (self : Redis.t)
    (data : models.StarterModel) :
  Redis._cleankey self data =
  Redis._cleankey {| Redis.pre := Py.strip (Redis.pre self);
                     Redis.ver := Py.strip (Redis.ver self) |} data.
Proof.
  unfold Redis._cleankey. cbn [Redis.pre Redis.ver].
  rewrite !strip_idempotent. reflexivity.
Qed.

(** X18: the separator is not escaped, so a version can be absorbed into
    the base key.  For a non-empty per-call version [cv] and a non-empty
    base key [k], the key composed from them is the key composed, without
    any version, from the base key [cv:k]. *)
Theorem version_collides_with_base_key
    (ip iv cp cv k : string) :
  cv <> "" -> k <> "" ->
  KeyComposer.compose ip iv cp cv k =
  KeyComposer.compose ip "" cp "" (cv +:+ ":" +:+ k).
Proof.
  intros Hcv Hk. unfold KeyComposer.compose, Redis._cleankey.
  cbn [Redis.pre Redis.ver models.pre models.ver models.key].
  destruct cv as [|a cv]; [congruence|].
  destruct k as [|b k]; [congruence|].
  set (p := Py.and_or (Some cp) (Py.strip ip)).
  cbn [Py.and_or String.eqb Ascii.eqb].
  unfold Py.filter_none, Py.join. cbn [Py.strip Py.lstrip Py.rstrip].
  destruct p as [|c p]; reflexivity.
Qed.

Lemma version_collides_with_base_key_witness :
  KeyComposer.compose "app" "" "" "v1" "user" = "app:v1:user"
  /\ KeyComposer.compose "app" "" "" "" "v1:user" = "app:v1:user".
Proof.
  split; [reflexivity|].
  exact (eq_trans
           (eq_sym (version_collides_with_base_key "app" "" "" "v1" "user"
                      ltac:(discriminate) ltac:(discriminate)))
           eq_refl).
Defined.

(** X19: a client built without prefix and version is transparent.  With
    no per-call prefix and version either (not given, or empty), the key
    sent to the store is the base key itself. *)
Theorem client_without_namespace_is_transparent
    (data : models.StarterModel) :
  Py.and_or (models.pre data) "" = "" ->
  Py.and_or (models.ver data) "" = "" ->
  Redis._cleankey (Redis__init__ None None) data = models.key data.
Proof.
  intros Hp Hv. unfold Redis._cleankey, Redis__init__.
  cbn [Redis.pre Redis.ver default from_option id Py.strip Py.lstrip
       Py.rstrip].
  rewrite Hp, Hv. unfold Py.filter_none, Py.join.
  destruct (models.key data) as [|c k]; reflexivity.
Qed.

Lemma client_without_namespace_is_transparent_witness :
  Redis._cleankey (Redis__init__ None None)
    (spec_starter "sam" None None (Some "")) = "sam".
Proof.
  exact (client_without_namespace_is_transparent
           (spec_starter "sam" None None (Some "")) eq_refl eq_refl).
Defined.
